(** * Jittered fractional indexing

    A shallow embedding of [src/index.ts]: the parameter validator
    [assertIsPositiveInteger], the single-key engine [generateKeyBetween]
    and the batch engine [generateNKeysBetween], together with the
    properties of them that the specification states.

    The two functions imported from the package "fractional-indexing", the
    global [Math.random] and the conversion of a number to a string are not
    part of the repository: they are the fields of the class [Host]. *)

From Stdlib Require Import ZArith QArith Qcanon Qround List String Ascii Bool Lia.
From Equations Require Import Equations.
Import ListNotations.

Set Implicit Arguments.
Set Default Goal Selector "!".
Unset Equations With Funext.

Local Open Scope Z_scope.

(** ** JavaScript values *)

(** A JavaScript [number].  The finite doubles are rationals; the embedding
    takes every rational, in lowest terms, and computes on them exactly, so
    [-0] is [0] and [n + 1], [n - 1] are exact (as they are on the doubles
    that are integers of magnitude up to 2^53). *)
Inductive number : Type :=
| Finite (q : Qc)
| NaN
| Infinity (negative : bool).

Definition of_Z (z : Z) : number := Finite (Q2Qc (inject_Z z)).

(** [Number.isInteger(n)] *)
Definition Number_isInteger (n : number) : bool :=
  match n with
  | Finite q => Pos.eqb (Qden (this q)) 1
  | _ => false
  end.

(** [x < y] on numbers: every comparison with [NaN] is false. *)
Definition number_ltb (x y : number) : bool :=
  match x, y with
  | Finite p, Finite q => match Qccompare p q with Lt => true | _ => false end
  | Finite _, Infinity neg => negb neg
  | Infinity neg, Finite _ => neg
  | Infinity nx, Infinity ny => nx && negb ny
  | _, _ => false
  end.

(** [x === y] on numbers: [NaN] equals nothing. *)
Definition number_eqb (x y : number) : bool :=
  match x, y with
  | Finite p, Finite q => match Qccompare p q with Eq => true | _ => false end
  | Infinity nx, Infinity ny => Bool.eqb nx ny
  | _, _ => false
  end.

(** [x + y] on numbers. *)
Definition number_add (x y : number) : number :=
  match x, y with
  | Finite p, Finite q => Finite (p + q)%Qc
  | NaN, _ | _, NaN => NaN
  | Infinity nx, Infinity ny => if Bool.eqb nx ny then Infinity nx else NaN
  | Infinity nx, Finite _ => Infinity nx
  | Finite _, Infinity ny => Infinity ny
  end.

(** The value of a number that [Number.isInteger] accepts (the floor of any
    other finite number, and 0 where there is none). *)
Definition integer_value (n : number) : Z :=
  match n with
  | Finite q => Qfloor (this q)
  | _ => 0
  end.

(** A key is a string; a bound is [string | null | undefined]. *)
Definition Key : Type := string.

Inductive Bound : Type :=
| BKey (k : Key)
| BNull
| BUndefined.

(** [keys[i]]: reading an array out of range yields [undefined]. *)
Definition array_get (keys : list Key) (i : Z) : Bound :=
  if i <? 0 then BUndefined
  else match nth_error keys (Z.to_nat i) with
       | Some k => BKey k
       | None => BUndefined
       end.

(** The double-quote character (code 34), used by the messages. *)
Definition dquote : string := String (ascii_of_nat 34) EmptyString.

(** ** Lexicographic comparison of keys *)

(** [k1 < k2] on strings, as JavaScript compares them: unit by unit, a proper
    prefix being smaller. *)
Definition key_lt (k1 k2 : Key) : Prop := String.compare k1 k2 = Lt.
Definition key_le (k1 k2 : Key) : Prop := String.compare k1 k2 <> Gt.

(** A bound used as a lower bound: an absent one is below every key. *)
Definition above (low : Bound) (k : Key) : Prop :=
  match low with
  | BKey l => key_lt l k
  | _ => True
  end.

(** A bound used as an upper bound: an absent one is above every key. *)
Definition below (k : Key) (high : Bound) : Prop :=
  match high with
  | BKey h => key_lt k h
  | _ => True
  end.

Definition strictly_between (low : Bound) (k : Key) (high : Bound) : Prop :=
  above low k /\ below k high.

(** The order on lower bounds and the order on upper bounds. *)
Definition lower_le (l1 l2 : Bound) : Prop :=
  match l1, l2 with
  | BKey x, BKey y => key_le x y
  | BKey _, _ => False
  | _, _ => True
  end.

Definition upper_le (h1 h2 : Bound) : Prop :=
  match h1, h2 with
  | BKey x, BKey y => key_le x y
  | _, BKey _ => False
  | _, _ => True
  end.

(** [low < high] for the two ends of an interval. *)
Definition bound_lt (low high : Bound) : Prop :=
  match low, high with
  | BKey l, BKey h => key_lt l h
  | _, _ => True
  end.

Fixpoint strictly_increasing (ks : list Key) : Prop :=
  match ks with
  | k1 :: ((k2 :: _) as rest) => key_lt k1 k2 /\ strictly_increasing rest
  | _ => True
  end.

(** ** The host environment *)

Class Host : Type := {
  (** what the functions of "fractional-indexing" throw *)
  ForeignError : Type;
  (** the state that random-bit sources read and advance *)
  Entropy : Type;
  (** [generateKeyBetween] of "fractional-indexing" *)
  unjitteredGenerateKeyBetween :
    Bound -> Bound -> option string -> ForeignError + Key;
  (** [generateNKeysBetween] of "fractional-indexing" *)
  unjitteredGenerateNKeysBetween :
    Bound -> Bound -> number -> option string -> ForeignError + list Key;
  (** [Math.random() < 0.5] *)
  Math_random_lt_half : Entropy -> bool * Entropy;
  (** the string a template literal puts for a number *)
  Number_toString : number -> string
}.

(** ** Effects: exceptions, the entropy consumed and the calls made *)

Inductive Event : Type :=
| RandomBit (bit : bool)
| CallKeyBetween (a b : Bound) (digits : option string)
| CallNKeysBetween (a b : Bound) (n : number) (digits : option string).

Inductive exn (E : Type) : Type :=
| Error (message : string)
| Foreign (e : E).
Arguments Error {E} message.
Arguments Foreign {E} e.

Inductive completion (E A : Type) : Type :=
| Return (a : A)
| Throw (e : exn E).
Arguments Return {E A} a.
Arguments Throw {E A} e.

Record World (R : Type) : Type := mkWorld {
  entropy : R;
  trace : list Event
}.

Definition M (E R A : Type) : Type := World R -> completion E A * World R.

Definition ret {E R A} (a : A) : M E R A := fun w => (Return a, w).

Definition throw {E R A} (e : exn E) : M E R A := fun w => (Throw e, w).

Definition bind {E R A B} (m : M E R A) (f : A -> M E R B) : M E R B :=
  fun w =>
    match m w with
    | (Return a, w') => f a w'
    | (Throw e, w') => (Throw e, w')
    end.

Notation "x <- m ;; k" := (bind m (fun x => k))
  (at level 61, m at next level, right associativity).
Notation "m ;;; k" := (bind m (fun _ => k))
  (at level 61, right associativity).

Definition log {E R} (ev : Event) : M E R unit :=
  fun w => (Return tt, mkWorld (entropy w) (trace w ++ [ev])).

(** A random-bit source, [() => boolean]: it reads and advances the entropy. *)
Definition RandomSource (R : Type) : Type := R -> bool * R.

(** How many random bits, and how many calls of the unjittered functions, a
    trace records. *)
Definition count_draws (t : list Event) : nat :=
  List.length (filter (fun ev => match ev with RandomBit _ => true | _ => false end) t).

Definition count_calls (t : list Event) : nat :=
  List.length (filter (fun ev => match ev with RandomBit _ => false | _ => true end) t).

(** ** The program *)

Section Program.

Context {host : Host}.

Local Abbreviation Eff := (M ForeignError Entropy).

(** [const DEFAULT_JITTER_BITS = 30] *)
Definition DEFAULT_JITTER_BITS : number := of_Z 30.

(** [const DEFAULT_GET_RANDOM_BIT = () => Math.random() < 0.5] *)
Definition DEFAULT_GET_RANDOM_BIT : RandomSource Entropy := Math_random_lt_half.

(** The options object [{ digits?, jitterBits?, getRandomBit? }]: a property
    that is missing reads as [undefined], here [None]. *)
Record Options : Type := mkOptions {
  digits : option string;
  jitterBits : option number;
  getRandomBit : option (RandomSource Entropy)
}.

(** [opts ?? {}] *)
Definition or_empty (opts : option Options) : Options :=
  match opts with
  | Some o => o
  | None => mkOptions None None None
  end.

(** [const { x = d } = ...]: the default stands in for [undefined]. *)
Definition or_default {A} (d : A) (x : option A) : A :=
  match x with
  | Some v => v
  | None => d
  end.

(** A call of a function of "fractional-indexing": the call is recorded and
    what the function throws propagates. *)
Definition outcome {A} (r : ForeignError + A) : Eff A :=
  match r with
  | inl e => throw (Foreign e)
  | inr v => ret v
  end.

Definition call_unjitteredGenerateKeyBetween
    (a b : Bound) (digits : option string) : Eff Key :=
  log (CallKeyBetween a b digits) ;;;
  outcome (unjitteredGenerateKeyBetween a b digits).

Definition call_unjitteredGenerateNKeysBetween
    (a b : Bound) (n : number) (digits : option string) : Eff (list Key) :=
  log (CallNKeysBetween a b n digits) ;;;
  outcome (unjitteredGenerateNKeysBetween a b n digits).

(** A call [getRandomBit()]: the bit is recorded and the entropy advances. *)
Definition call_getRandomBit (getRandomBit : RandomSource Entropy) : Eff bool :=
  fun w =>
    let (bit, e) := getRandomBit (entropy w) in
    (Return bit, mkWorld e (trace w ++ [RandomBit bit])).

(** The two messages of [assertIsPositiveInteger]. *)
Definition must_be_integer (paramName : string) (n : number) : string :=
  (dquote ++ paramName ++ dquote ++ " must be an integer, got '"
     ++ Number_toString n ++ "'")%string.

Definition must_be_non_negative (paramName : string) (n : number) : string :=
  (dquote ++ paramName ++ dquote ++ " must be greater than or equal to 0, got '"
     ++ Number_toString n ++ "'")%string.

(** [function assertIsPositiveInteger(paramName, n)] *)
Definition assertIsPositiveInteger (paramName : string) (n : number) : Eff unit :=
  if negb (Number_isInteger n) then
    throw (Error (must_be_integer paramName n))
  else if number_ltb n (of_Z 0) then
    throw (Error (must_be_non_negative paramName n))
  else ret tt.

(** The variables [low], [high] and [midpoint] of [generateKeyBetween]: the
    working interval and its current midpoint. *)
Record Working : Type := mkWorking {
  low : Bound;
  high : Bound;
  midpoint : Key
}.

(** One pass through the body of the [while] loop of [generateKeyBetween]. *)
Definition generateKeyBetween_body
    (getRandomBit : RandomSource Entropy) (digits : option string)
    (s : Working) : Eff Working :=
  bit <- call_getRandomBit getRandomBit ;;
  let randomBit := if bit then 1 else 0 in
  let low' := if randomBit =? 1 then BKey (midpoint s) else low s in
  let high' := if randomBit =? 1 then high s else BKey (midpoint s) in
  midpoint' <- call_unjitteredGenerateKeyBetween low' high' digits ;;
  ret (mkWorking low' high' midpoint').

(** The loop [while (remainingJitterBits > 0) { ...; remainingJitterBits-- }]
    of [generateKeyBetween].  The counter has passed
    [assertIsPositiveInteger]: it is kept as the integer that it is, and
    decremented exactly. *)
Equations? generateKeyBetween_while
    (getRandomBit : RandomSource Entropy) (digits : option string)
    (remainingJitterBits : Z) (s : Working)
    (w : World Entropy) : completion ForeignError Key * World Entropy
    by wf (Z.to_nat remainingJitterBits) lt :=
  generateKeyBetween_while getRandomBit digits remainingJitterBits s w
    with Z_gt_dec remainingJitterBits 0 := {
    | left _ with generateKeyBetween_body getRandomBit digits s w := {
      | (Return s', w') =>
          generateKeyBetween_while getRandomBit digits
            (remainingJitterBits - 1) s' w'
      | (Throw e, w') => (Throw e, w') }
    | right _ => (Return (midpoint s), w) }.
Proof. lia. Qed.

(** [export function generateKeyBetween(a, b, opts)] *)
Definition generateKeyBetween (a b : Bound) (opts : option Options) : Eff Key :=
  let o := or_empty opts in
  let digits := digits o in
  let jitterBits := or_default DEFAULT_JITTER_BITS (jitterBits o) in
  let getRandomBit := or_default DEFAULT_GET_RANDOM_BIT (getRandomBit o) in
  assertIsPositiveInteger "jitterBits" jitterBits ;;;
  let remainingJitterBits := integer_value jitterBits in
  midpoint <- call_unjitteredGenerateKeyBetween a b digits ;;
  generateKeyBetween_while getRandomBit digits remainingJitterBits
    (mkWorking a b midpoint).

(** The loop [for (let i = 0; i < n; i++)] of [generateNKeysBetween]; [push]
    appends at the end of [jitteredKeys]. *)
Equations? generateNKeysBetween_for
    (opts : option Options) (keys : list Key) (n : Z)
    (i : Z) (jitteredKeys : list Key)
    (w : World Entropy) : completion ForeignError (list Key) * World Entropy
    by wf (Z.to_nat (n - i)) lt :=
  generateNKeysBetween_for opts keys n i jitteredKeys w with Z_lt_dec i n := {
    | left _
        with generateKeyBetween (array_get keys i) (array_get keys (i + 1)) opts w := {
      | (Return k, w') =>
          generateNKeysBetween_for opts keys n (i + 1) (jitteredKeys ++ [k]) w'
      | (Throw e, w') => (Throw e, w') }
    | right _ => (Return jitteredKeys, w) }.
Proof. lia. Qed.

(** [jitterBits === 0], where [jitterBits] may be [undefined]. *)
Definition is_zero (jitterBits : option number) : bool :=
  match jitterBits with
  | Some j => number_eqb j (of_Z 0)
  | None => false
  end.

(** [export function generateNKeysBetween(a, b, n, opts)] *)
Definition generateNKeysBetween
    (a b : Bound) (n : number) (opts : option Options) : Eff (list Key) :=
  let o := or_empty opts in
  let digits := digits o in
  let jitterBits := jitterBits o in
  assertIsPositiveInteger "n" n ;;;
  if number_eqb n (of_Z 0) then ret []
  else if is_zero jitterBits then
    call_unjitteredGenerateNKeysBetween a b n digits
  else
    keys <- call_unjitteredGenerateNKeysBetween a b (number_add n (of_Z 1)) digits ;;
    generateNKeysBetween_for opts keys (integer_value n) 0 [].

End Program.

(** ** What the specification speaks of *)

Section Notions.

Context {host : Host}.

(** The [jitterBits] and the random-bit source a call works with, once the
    defaults are filled in. *)
Definition effective_jitterBits (opts : option Options) : number :=
  or_default DEFAULT_JITTER_BITS (jitterBits (or_empty opts)).

Definition effective_getRandomBit (opts : option Options) : RandomSource Entropy :=
  or_default DEFAULT_GET_RANDOM_BIT (getRandomBit (or_empty opts)).

Definition digits_of (opts : option Options) : option string :=
  digits (or_empty opts).

(** Specification 4.2, step 4, "repeat exactly [jitterBits] times": the
    working interval after [times] passes through the loop body. *)
Fixpoint repeat_body
    (getRandomBit : RandomSource Entropy) (digits : option string)
    (times : nat) (s : Working) (w : World Entropy)
    : completion ForeignError Working * World Entropy :=
  match times with
  | O => (Return s, w)
  | S t =>
      match generateKeyBetween_body getRandomBit digits s w with
      | (Return s', w') => repeat_body getRandomBit digits t s' w'
      | (Throw e, w') => (Throw e, w')
      end
  end.

(** The entropy after [times] calls of a random-bit source. *)
Fixpoint advance (getRandomBit : RandomSource Entropy) (times : nat)
    (e : Entropy) : Entropy :=
  match times with
  | O => e
  | S t => advance getRandomBit t (snd (getRandomBit e))
  end.

(** Specification 4.3, step 4: the [n] gaps between [n + 1] boundary keys,
    and the single-key engine run in each gap in increasing order. *)
Definition gaps (keys : list Key) (n : nat) : list (Bound * Bound) :=
  map (fun i => (array_get keys (Z.of_nat i), array_get keys (Z.of_nat i + 1)))
      (seq 0 n).

Fixpoint jitter_gaps (opts : option Options) (gs : list (Bound * Bound))
    (w : World Entropy) : completion ForeignError (list Key) * World Entropy :=
  match gs with
  | [] => (Return [], w)
  | (a, b) :: rest =>
      match generateKeyBetween a b opts w with
      | (Return k, w') =>
          match jitter_gaps opts rest w' with
          | (Return ks, w'') => (Return (k :: ks), w'')
          | (Throw e, w'') => (Throw e, w'')
          end
      | (Throw e, w') => (Throw e, w')
      end
  end.

(** The gaps of a list of boundary keys, taken two by two. *)
Fixpoint adjacent (keys : list Key) : list (Bound * Bound) :=
  match keys with
  | k1 :: ((k2 :: _) as rest) => (BKey k1, BKey k2) :: adjacent rest
  | _ => []
  end.

(** The events of the narrowing loop: [bits] times a random bit followed by
    one call of the unjittered function. *)
Inductive narrowing (digits : option string) : nat -> list Event -> Prop :=
| narrowing_done : narrowing digits O []
| narrowing_pass bit a b bits t :
    narrowing digits bits t ->
    narrowing digits (S bits) (RandomBit bit :: CallKeyBetween a b digits :: t).

(** The events of one single-key call in the gap [(a, b)]. *)
Definition single_key_events (digits : option string) (bits : nat)
    (gap : Bound * Bound) (t : list Event) : Prop :=
  exists t', t = CallKeyBetween (fst gap) (snd gap) digits :: t'
             /\ narrowing digits bits t'.

(** The contract of "fractional-indexing", for the keys [ok] that it accepts
    and produces: between two bounds in order it returns a key strictly
    between them; asked for [count] keys it returns [count] of them,
    strictly increasing and strictly between the bounds. *)
Definition ok_bound (ok : Key -> Prop) (b : Bound) : Prop :=
  match b with
  | BKey k => ok k
  | _ => True
  end.

Definition key_contract (ok : Key -> Prop) (digits : option string) : Prop :=
  forall a b, ok_bound ok a -> ok_bound ok b -> bound_lt a b ->
    exists k, unjitteredGenerateKeyBetween a b digits = inr k
              /\ ok k /\ strictly_between a k b.

Definition batch_contract (ok : Key -> Prop) (digits : option string) : Prop :=
  forall a b (count : nat), ok_bound ok a -> ok_bound ok b -> bound_lt a b ->
    exists ks, unjitteredGenerateNKeysBetween a b (of_Z (Z.of_nat count)) digits = inr ks
               /\ List.length ks = count
               /\ Forall ok ks
               /\ strictly_increasing ks
               /\ Forall (fun k => strictly_between a k b) ks.

(** A gap that the unjittered function accepts, and a key inside a gap. *)
Definition ok_gap (ok : Key -> Prop) (g : Bound * Bound) : Prop :=
  ok_bound ok (fst g) /\ ok_bound ok (snd g) /\ bound_lt (fst g) (snd g).

Definition in_gap (g : Bound * Bound) (k : Key) : Prop :=
  strictly_between (fst g) k (snd g).

(** The working interval [s'] lies within [s]: the lower bound has not
    decreased and the upper bound has not increased. *)
Definition nested (s s' : Working) : Prop :=
  lower_le (low s) (low s') /\ upper_le (high s') (high s).

(** The midpoint lies strictly between the working bounds. *)
Definition inside (s : Working) : Prop :=
  strictly_between (low s) (midpoint s) (high s).

(** What the loop keeps true of its working interval, for the keys [ok] of
    the contract and the bounds [a] and [b] of the call. *)
Definition kept (ok : Key -> Prop) (a b : Bound) (s : Working) : Prop :=
  ok_bound ok (low s) /\ ok_bound ok (high s) /\ ok (midpoint s)
  /\ inside s /\ lower_le a (low s) /\ upper_le (high s) b.

(** The bits that [times] calls of a random-bit source return. *)
Fixpoint drawn (getRandomBit : RandomSource Entropy) (times : nat)
    (e : Entropy) : list bool :=
  match times with
  | O => []
  | S t => let (bit, e') := getRandomBit e in bit :: drawn getRandomBit t e'
  end.

(** What the loop body of [generateKeyBetween] makes of the working interval
    for a given bit, and what the loop makes of it for given bits. *)
Definition narrow (digits : option string) (bit : bool) (s : Working)
    : ForeignError + Working :=
  let randomBit := if bit then 1 else 0 in
  let low' := if randomBit =? 1 then BKey (midpoint s) else low s in
  let high' := if randomBit =? 1 then high s else BKey (midpoint s) in
  match unjitteredGenerateKeyBetween low' high' digits with
  | inr midpoint' => inr (mkWorking low' high' midpoint')
  | inl err => inl err
  end.

Fixpoint walk (digits : option string) (bits : list bool) (s : Working)
    : ForeignError + Working :=
  match bits with
  | [] => inr s
  | bit :: rest =>
      match narrow digits bit s with
      | inr s' => walk digits rest s'
      | inl err => inl err
      end
  end.


(** An event of a single-key call with the given digits. *)
Definition single_key_event (digits : option string) (ev : Event) : Prop :=
  match ev with
  | RandomBit _ => True
  | CallKeyBetween _ _ d => d = digits
  | CallNKeysBetween _ _ _ _ => False
  end.

(** The loop of the test "should not generate keys that are too long",
    [while (i < times) { high = generateKeyBetween(low, high, opts); i++ }]:
    the key returned becomes the upper bound of the next call. *)
Fixpoint shrink_high (opts : option Options) (low : Bound) (times : nat)
    (high : Key) (w : World Entropy)
    : completion ForeignError Key * World Entropy :=
  match times with
  | O => (Return high, w)
  | S t =>
      match generateKeyBetween low (BKey high) opts w with
      | (Return k, w') => shrink_high opts low t k w'
      | (Throw e, w') => (Throw e, w')
      end
  end.

End Notions.

(** ** A small host, to run the program on

    Keys are the binary fractions: the non-empty strings of ['0'] and ['1']
    that end in ['1'], which lexicographic comparison orders as the numbers
    they denote.  Random bits are read off a list. *)

Module Toy.

Local Open Scope string_scope.

Fixpoint valid_key (k : Key) : bool :=
  match k with
  | EmptyString => false
  | String c EmptyString => Ascii.eqb c "1"
  | String c rest => (Ascii.eqb c "0" || Ascii.eqb c "1") && valid_key rest
  end.

Definition valid_bound (b : Bound) : bool :=
  match b with
  | BKey k => valid_key k
  | _ => true
  end.

Fixpoint binary (k : string) : bool :=
  match k with
  | EmptyString => true
  | String c rest => (Ascii.eqb c "0" || Ascii.eqb c "1") && binary rest
  end.

Definition valid (k : Key) : Prop := valid_key k = true.

Fixpoint ones (m : nat) : string :=
  match m with
  | O => EmptyString
  | S m' => String "1" (ones m')
  end.

(** [lower_last h m]: the final character of [h] replaced by a ['0'] and [m]
    times ['1']. *)
Fixpoint lower_last (h : string) (m : nat) : string :=
  match h with
  | EmptyString => EmptyString
  | String _ EmptyString => String "0" (ones m)
  | String c rest => String c (lower_last rest m)
  end.

Definition bound_length (b : Bound) : nat :=
  match b with
  | BKey k => String.length k
  | _ => O
  end.

Definition ordered (low high : Bound) : bool :=
  match low, high with
  | BKey l, BKey h => String.ltb l h
  | _, _ => true
  end.

Definition key_between (low high : Bound) (digits : option string) : string + Key :=
  if negb (valid_bound low && valid_bound high) then inl "invalid order key"
  else if negb (ordered low high) then inl "a >= b"
  else match high, low with
       | BKey h, _ => inr (lower_last h (S (bound_length low)))
       | _, BKey l => inr (l ++ "1")
       | _, _ => inr "1"
       end.

Fixpoint keys_from (count : nat) (low high : Bound) (digits : option string)
    : string + list Key :=
  match count with
  | O => inr []
  | S c =>
      match key_between low high digits with
      | inl e => inl e
      | inr k =>
          match keys_from c (BKey k) high digits with
          | inl e => inl e
          | inr ks => inr (k :: ks)
          end
      end
  end.

Definition n_keys_between (low high : Bound) (n : number) (digits : option string)
    : string + list Key :=
  keys_from (Z.to_nat (integer_value n)) low high digits.

(** The next bit of a list of bits ([false] once the list is used up). *)
Definition next_bit : RandomSource (list bool) :=
  fun bits =>
    match bits with
    | [] => (false, [])
    | b :: rest => (b, rest)
    end.

(** Decimal digits of a natural number and of a fraction [r / d < 1]. *)
Definition digit (n : N) : ascii := ascii_of_N (48 + n).

Fixpoint nat_digits (fuel : nat) (n : N) (acc : string) : string :=
  match fuel with
  | O => acc
  | S f =>
      let acc' := String (digit (n mod 10)) acc in
      if (n / 10 =? 0)%N then acc' else nat_digits f (n / 10) acc'
  end.

Fixpoint fraction_digits (fuel : nat) (r d : N) : string :=
  match fuel with
  | O => EmptyString
  | S f =>
      if (r =? 0)%N then EmptyString
      else String (digit ((10 * r) / d)) (fraction_digits f ((10 * r) mod d) d)
  end.

Definition to_string (n : number) : string :=
  match n with
  | NaN => "NaN"
  | Infinity neg => if neg then "-Infinity" else "Infinity"
  | Finite q =>
      let a := Z.abs_N (Qnum (this q)) in
      let d := Npos (Qden (this q)) in
      let sign := if (Qnum (this q) <? 0)%Z then "-" else "" in
      let whole := nat_digits (S (N.to_nat (N.log2 a))) (a / d) "" in
      let frac := fraction_digits 64 (a mod d) d in
      sign ++ whole ++ (if (a mod d =? 0)%N then "" else "." ++ frac)
  end.

#[export] Instance host : Host := {|
  ForeignError := string;
  Entropy := list bool;
  unjitteredGenerateKeyBetween := key_between;
  unjitteredGenerateNKeysBetween := n_keys_between;
  Math_random_lt_half := next_bit;
  Number_toString := to_string
|}.

(** Options with the given number of jitter bits, reading [next_bit]. *)
Definition options (bits : number) : option Options :=
  Some (mkOptions None (Some bits) (Some next_bit)).

Definition start (bits : list bool) : World (list bool) := mkWorld bits [].

End Toy.

(** Further inputs for the small host: options whose source always answers
    [true], and what the validator throws for [jitterBits = -1]. *)
Module ToyInputs.

Import Toy.

Definition always_true : option Options :=
  Some (mkOptions None (Some (of_Z 3)) (Some (fun e : list bool => (true, e)))).


End ToyInputs.

(** * Properties *)

Unset Implicit Arguments.

(** ** The order on keys *)

Section KeyOrder.

Lemma ascii_compare_refl (c : ascii) : Ascii.compare c c = Eq.
Proof. unfold Ascii.compare. apply N.compare_refl. Qed.

Lemma ascii_compare_lt_trans (a b c : ascii) :
  Ascii.compare a b = Lt -> Ascii.compare b c = Lt -> Ascii.compare a c = Lt.
Proof.
  unfold Ascii.compare. rewrite !N.compare_lt_iff. apply N.lt_trans.
Qed.

Lemma string_compare_refl (k : string) : String.compare k k = Eq.
Proof.
  induction k as [|c k IH]; simpl; [reflexivity|].
  now rewrite ascii_compare_refl.
Qed.

Lemma key_lt_irrefl (k : Key) : ~ key_lt k k.
Proof. unfold key_lt. rewrite string_compare_refl. discriminate. Qed.

Lemma key_lt_trans (x y z : Key) : key_lt x y -> key_lt y z -> key_lt x z.
Proof.
  unfold key_lt. revert y z.
  induction x as [|a x IH]; intros [|b y] [|c z]; simpl; try discriminate; auto.
  destruct (Ascii.compare a b) eqn:Hab; try discriminate;
    destruct (Ascii.compare b c) eqn:Hbc; try discriminate; intros Hxy Hyz.
  - apply Ascii.compare_eq_iff in Hab, Hbc. subst.
    rewrite ascii_compare_refl. eauto.
  - apply Ascii.compare_eq_iff in Hab. subst. now rewrite Hbc.
  - apply Ascii.compare_eq_iff in Hbc. subst. now rewrite Hab.
  - now rewrite (ascii_compare_lt_trans _ _ _ Hab Hbc).
Qed.

Lemma key_le_refl (k : Key) : key_le k k.
Proof. unfold key_le. rewrite string_compare_refl. discriminate. Qed.

Lemma key_lt_le (x y : Key) : key_lt x y -> key_le x y.
Proof. unfold key_lt, key_le. intros ->. discriminate. Qed.

Lemma key_le_cases (x y : Key) : key_le x y -> x = y \/ key_lt x y.
Proof.
  unfold key_le, key_lt. destruct (String.compare x y) eqn:E; intros H.
  - left. now apply String.compare_eq_iff.
  - now right.
  - congruence.
Qed.

Lemma key_le_lt_trans (x y z : Key) : key_le x y -> key_lt y z -> key_lt x z.
Proof.
  intros Hxy Hyz. destruct (key_le_cases _ _ Hxy) as [->|Hlt]; [assumption|].
  eapply key_lt_trans; eassumption.
Qed.

Lemma key_lt_le_trans (x y z : Key) : key_lt x y -> key_le y z -> key_lt x z.
Proof.
  intros Hxy Hyz. destruct (key_le_cases _ _ Hyz) as [<-|Hlt]; [assumption|].
  eapply key_lt_trans; eassumption.
Qed.

Lemma lower_le_refl (b : Bound) : lower_le b b.
Proof. destruct b; simpl; auto using key_le_refl. Qed.

Lemma upper_le_refl (b : Bound) : upper_le b b.
Proof. destruct b; simpl; auto using key_le_refl. Qed.

(** A key above a lower bound is a lower bound that is not smaller. *)
Lemma lower_le_above (b : Bound) (k : Key) : above b k -> lower_le b (BKey k).
Proof. destruct b; simpl; auto using key_lt_le. Qed.

Lemma upper_le_below (b : Bound) (k : Key) : below k b -> upper_le (BKey k) b.
Proof. destruct b; simpl; auto using key_lt_le. Qed.

Lemma above_lower_le (a b : Bound) (k : Key) :
  lower_le a b -> above b k -> above a k.
Proof.
  destruct a, b; simpl; auto; try contradiction.
  apply key_le_lt_trans.
Qed.

Lemma below_upper_le (a b : Bound) (k : Key) :
  below k a -> upper_le a b -> below k b.
Proof.
  destruct a, b; simpl; auto; try contradiction.
  apply key_lt_le_trans.
Qed.

End KeyOrder.

(** ** Numbers *)

Section Numbers.

Lemma Qred_inject_Z (z : Z) : Qred (inject_Z z) = inject_Z z.
Proof. apply Qred_identity. simpl. apply Z.gcd_1_r. Qed.

Lemma this_of_Z (z : Z) : this (Q2Qc (inject_Z z)) = inject_Z z.
Proof. simpl. apply Qred_inject_Z. Qed.

Lemma isInteger_of_Z (z : Z) : Number_isInteger (of_Z z) = true.
Proof. unfold of_Z, Number_isInteger. now rewrite this_of_Z. Qed.

Lemma integer_value_of_Z (z : Z) : integer_value (of_Z z) = z.
Proof. unfold of_Z, integer_value. rewrite this_of_Z. apply Qfloor_Z. Qed.

Lemma Qccompare_of_Z (x y : Z) :
  Qccompare (Q2Qc (inject_Z x)) (Q2Qc (inject_Z y)) = Z.compare x y.
Proof.
  unfold Qccompare. rewrite !this_of_Z. unfold Qcompare. simpl.
  now rewrite !Z.mul_1_r.
Qed.

Lemma ltb_of_Z (x y : Z) : number_ltb (of_Z x) (of_Z y) = (x <? y).
Proof. unfold number_ltb, of_Z, Z.ltb. now rewrite Qccompare_of_Z. Qed.

Lemma eqb_of_Z (x y : Z) : number_eqb (of_Z x) (of_Z y) = (x =? y).
Proof.
  unfold number_eqb, of_Z. rewrite Qccompare_of_Z.
  destruct (Z.eqb_spec x y) as [->|Hne]; [now rewrite Z.compare_refl|].
  destruct (Z.compare_spec x y); congruence.
Qed.

Lemma add_of_Z (x y : Z) : number_add (of_Z x) (of_Z y) = of_Z (x + y).
Proof.
  unfold number_add, of_Z, Qcplus. f_equal. apply Q2Qc_eq_iff.
  rewrite !this_of_Z, inject_Z_plus. reflexivity.
Qed.

(** The numbers that [Number.isInteger] accepts are the integers. *)
Lemma isInteger_is_of_Z (n : number) :
  Number_isInteger n = true -> n = of_Z (integer_value n).
Proof.
  destruct n as [[[a d] Hc]| |]; simpl; try discriminate.
  destruct d; try discriminate. intros _.
  unfold of_Z. f_equal. apply Qc_is_canon.
  rewrite this_of_Z. unfold Qfloor. cbn [this]. now rewrite Z.div_1_r.
Qed.

(** So the numbers that the validator accepts are the [of_Z (Z.of_nat k)]. *)
Lemma accepted_is_of_nat (n : number) :
  Number_isInteger n = true -> number_ltb n (of_Z 0) = false ->
  exists k : nat, n = of_Z (Z.of_nat k).
Proof.
  intros Hint Hsign. rewrite (isInteger_is_of_Z n Hint) in Hsign |- *.
  rewrite ltb_of_Z in Hsign. apply Z.ltb_ge in Hsign.
  exists (Z.to_nat (integer_value n)). now rewrite Z2Nat.id.
Qed.

End Numbers.

(** ** The validator *)

Section Validator.

Context {host : Host}.

Lemma assert_not_integer (paramName : string) (n : number) (w : World Entropy) :
  Number_isInteger n = false ->
  assertIsPositiveInteger paramName n w
  = (Throw (Error (must_be_integer paramName n)), w).
Proof. intros H. unfold assertIsPositiveInteger. now rewrite H. Qed.

Lemma assert_negative (paramName : string) (n : number) (w : World Entropy) :
  Number_isInteger n = true -> number_ltb n (of_Z 0) = true ->
  assertIsPositiveInteger paramName n w
  = (Throw (Error (must_be_non_negative paramName n)), w).
Proof. intros H1 H2. unfold assertIsPositiveInteger. now rewrite H1, H2. Qed.

Lemma assert_accepts (paramName : string) (z : Z) (w : World Entropy) :
  0 <= z -> assertIsPositiveInteger paramName (of_Z z) w = (Return tt, w).
Proof.
  intros Hz. unfold assertIsPositiveInteger.
  rewrite isInteger_of_Z, ltb_of_Z. simpl.
  destruct (Z.ltb_spec z 0); [lia|reflexivity].
Qed.

(** A refused parameter is refused with one of the two messages, and the
    world is as it was. *)
Lemma assert_refuses (paramName : string) (n : number) (w : World Entropy) :
  Number_isInteger n = false \/ number_ltb n (of_Z 0) = true ->
  exists text,
    (text = " must be an integer, got '"
     \/ text = " must be greater than or equal to 0, got '")%string
    /\ assertIsPositiveInteger paramName n w
       = (Throw (Error (dquote ++ paramName ++ dquote ++ text
                          ++ Number_toString n ++ "'")%string), w).
Proof.
  intros H. destruct (Number_isInteger n) eqn:Hint.
  - destruct H as [H|H]; [discriminate|].
    exists " must be greater than or equal to 0, got '"%string.
    split; [now right|]. now rewrite assert_negative.
  - exists " must be an integer, got '"%string.
    split; [now left|]. now rewrite assert_not_integer.
Qed.

End Validator.

(** ** The single-key engine *)

Section SingleKey.

Context {host : Host}.

Lemma while_unfold gr d (r : Z) (s : Working) (w : World Entropy) :
  generateKeyBetween_while gr d r s w
  = if r >? 0 then
      match generateKeyBetween_body gr d s w with
      | (Return s', w') => generateKeyBetween_while gr d (r - 1) s' w'
      | (Throw e, w') => (Throw e, w')
      end
    else (Return (midpoint s), w).
Proof.
  rewrite generateKeyBetween_while_equation_1.
  destruct (Z_gt_dec r 0) as [Hr|Hr]; simpl.
  - destruct (Z.gtb_spec r 0); [|lia].
    destruct (generateKeyBetween_body gr d s w) as [[s'|e] w']; reflexivity.
  - destruct (Z.gtb_spec r 0); [lia|reflexivity].
Qed.

(** What one pass through the loop body does. *)
Lemma body_run gr d (s : Working) (w : World Entropy) :
  generateKeyBetween_body gr d s w
  = let (bit, e) := gr (entropy w) in
    let low' := if bit then BKey (midpoint s) else low s in
    let high' := if bit then high s else BKey (midpoint s) in
    let w' := mkWorld e (trace w ++ [RandomBit bit; CallKeyBetween low' high' d]) in
    match unjitteredGenerateKeyBetween low' high' d with
    | inr m => (Return (mkWorking low' high' m), w')
    | inl err => (Throw (Foreign err), w')
    end.
Proof.
  unfold generateKeyBetween_body, bind, call_getRandomBit,
    call_unjitteredGenerateKeyBetween, bind, log.
  destruct (gr (entropy w)) as [bit e]. simpl.
  rewrite <- app_assoc. simpl.
  destruct bit; simpl;
    match goal with
    | |- context [unjitteredGenerateKeyBetween ?a ?b ?c] =>
        destruct (unjitteredGenerateKeyBetween a b c)
    end; reflexivity.
Qed.

(** The loop is the body repeated [remainingJitterBits] times, and it returns
    the last midpoint. *)
Lemma while_repeat gr d (times : nat) (s : Working) (w : World Entropy) :
  generateKeyBetween_while gr d (Z.of_nat times) s w
  = match repeat_body gr d times s w with
    | (Return s', w') => (Return (midpoint s'), w')
    | (Throw e, w') => (Throw e, w')
    end.
Proof.
  revert s w. induction times as [|t IH]; intros s w.
  - rewrite while_unfold. reflexivity.
  - rewrite while_unfold.
    destruct (Z.gtb_spec (Z.of_nat (S t)) 0); [|lia].
    replace (Z.of_nat (S t) - 1) with (Z.of_nat t) by lia.
    simpl. destruct (generateKeyBetween_body gr d s w) as [[s'|e] w'];
      [apply IH|reflexivity].
Qed.

(** [generateKeyBetween] with [jitterBits] a non-negative integer. *)
Lemma generateKeyBetween_run (a b : Bound) (opts : option Options)
    (bits : nat) (w : World Entropy) :
  effective_jitterBits opts = of_Z (Z.of_nat bits) ->
  generateKeyBetween a b opts w
  = let d := digits_of opts in
    let w0 := mkWorld (entropy w) (trace w ++ [CallKeyBetween a b d]) in
    match unjitteredGenerateKeyBetween a b d with
    | inl err => (Throw (Foreign err), w0)
    | inr m =>
        match repeat_body (effective_getRandomBit opts) d bits (mkWorking a b m) w0 with
        | (Return s, w') => (Return (midpoint s), w')
        | (Throw e, w') => (Throw e, w')
        end
    end.
Proof.
  intros Hbits. unfold generateKeyBetween.
  fold (effective_jitterBits opts). fold (effective_getRandomBit opts).
  fold (digits_of opts). rewrite Hbits, integer_value_of_Z.
  unfold bind at 1. rewrite assert_accepts by lia.
  unfold bind, call_unjitteredGenerateKeyBetween, bind, log. simpl.
  destruct (unjitteredGenerateKeyBetween a b (digits_of opts)); simpl;
    [reflexivity|].
  apply while_repeat.
Qed.

End SingleKey.

(** ** The events of the narrowing loop *)

Section Events.

Context {host : Host}.

Lemma narrowing_draws d (bits : nat) (t : list Event) :
  narrowing d bits t -> count_draws t = bits /\ count_calls t = bits.
Proof.
  unfold count_draws, count_calls.
  induction 1 as [|bit a b bits t _ [IHd IHc]]; simpl; [split; reflexivity|].
  split; congruence.
Qed.

Lemma count_draws_app (t1 t2 : list Event) :
  count_draws (t1 ++ t2) = (count_draws t1 + count_draws t2)%nat.
Proof. unfold count_draws. now rewrite filter_app, length_app. Qed.

Lemma count_calls_app (t1 t2 : list Event) :
  count_calls (t1 ++ t2) = (count_calls t1 + count_calls t2)%nat.
Proof. unfold count_calls. now rewrite filter_app, length_app. Qed.

(** A pass that completes appends one random bit and one call. *)
Lemma body_events gr d (s s' : Working) (w w' : World Entropy) :
  generateKeyBetween_body gr d s w = (Return s', w') ->
  exists bit, trace w' = trace w ++ [RandomBit bit; CallKeyBetween (low s') (high s') d].
Proof.
  rewrite body_run. destruct (gr (entropy w)) as [bit e]. cbv zeta.
  destruct (unjitteredGenerateKeyBetween _ _ d); [discriminate|].
  intros [= <- <-]. exists bit. reflexivity.
Qed.

Lemma repeat_body_events gr d (times : nat) (s s' : Working) (w w' : World Entropy) :
  repeat_body gr d times s w = (Return s', w') ->
  exists t, trace w' = trace w ++ t /\ narrowing d times t.
Proof.
  revert s w. induction times as [|n IH]; intros s w; simpl.
  - intros [= <- <-]. exists []. rewrite app_nil_r. split; [reflexivity|constructor].
  - destruct (generateKeyBetween_body gr d s w) as [[s1|e] w1] eqn:Hbody;
      [|discriminate].
    intros Hrest. destruct (body_events _ _ _ _ _ _ Hbody) as [bit Hbit].
    destruct (IH _ _ Hrest) as [t [Ht Hn]].
    exists (RandomBit bit :: CallKeyBetween (low s1) (high s1) d :: t).
    split; [|now constructor].
    rewrite Ht, Hbit, <- app_assoc. reflexivity.
Qed.

(** The events of a single-key call that returns. *)
Lemma generateKeyBetween_events (a b : Bound) (opts : option Options)
    (bits : nat) (w w' : World Entropy) (k : Key) :
  effective_jitterBits opts = of_Z (Z.of_nat bits) ->
  generateKeyBetween a b opts w = (Return k, w') ->
  exists t, trace w' = trace w ++ t
            /\ single_key_events (digits_of opts) bits (a, b) t.
Proof.
  intros Hbits. rewrite generateKeyBetween_run with (bits := bits) by assumption.
  cbv zeta.
  destruct (unjitteredGenerateKeyBetween a b (digits_of opts)) as [err|m];
    [discriminate|].
  destruct (repeat_body _ _ bits _ _) as [[s|e] w1] eqn:Hrep; [|discriminate].
  intros [= <- <-].
  destruct (repeat_body_events _ _ _ _ _ _ _ Hrep) as [t [Ht Hn]]. simpl in Ht.
  exists (CallKeyBetween a b (digits_of opts) :: t). split.
  - rewrite Ht, <- app_assoc. reflexivity.
  - exists t. split; [reflexivity|assumption].
Qed.

(** The entropy after a pass, after the loop and after a single-key call. *)
Lemma body_entropy gr d (s s' : Working) (w w' : World Entropy) :
  generateKeyBetween_body gr d s w = (Return s', w') ->
  entropy w' = snd (gr (entropy w)).
Proof.
  rewrite body_run. destruct (gr (entropy w)) as [bit e]. cbv zeta.
  destruct (unjitteredGenerateKeyBetween _ _ d); [discriminate|].
  now intros [= <- <-].
Qed.

Lemma repeat_body_entropy gr d (times : nat) (s s' : Working) (w w' : World Entropy) :
  repeat_body gr d times s w = (Return s', w') ->
  entropy w' = advance gr times (entropy w).
Proof.
  revert s w. induction times as [|n IH]; intros s w; simpl.
  - now intros [= <- <-].
  - destruct (generateKeyBetween_body gr d s w) as [[s1|e] w1] eqn:Hbody;
      [|discriminate].
    intros Hrest. rewrite (IH _ _ Hrest).
    now rewrite (body_entropy _ _ _ _ _ _ Hbody).
Qed.

Lemma generateKeyBetween_entropy (a b : Bound) (opts : option Options)
    (bits : nat) (w w' : World Entropy) (k : Key) :
  effective_jitterBits opts = of_Z (Z.of_nat bits) ->
  generateKeyBetween a b opts w = (Return k, w') ->
  entropy w' = advance (effective_getRandomBit opts) bits (entropy w).
Proof.
  intros Hbits. rewrite generateKeyBetween_run with (bits := bits) by assumption.
  cbv zeta.
  destruct (unjitteredGenerateKeyBetween a b (digits_of opts)) as [err|m];
    [discriminate|].
  destruct (repeat_body _ _ bits _ _) as [[s|e] w1] eqn:Hrep; [|discriminate].
  intros [= <- <-].
  now rewrite (repeat_body_entropy _ _ _ _ _ _ _ Hrep).
Qed.

Lemma advance_add gr (m n : nat) (e : Entropy) :
  advance gr (m + n) e = advance gr n (advance gr m e).
Proof. revert e. induction m as [|m IH]; intros e; simpl; [reflexivity|apply IH]. Qed.

Lemma single_key_draws d (bits : nat) (gap : Bound * Bound) (t : list Event) :
  single_key_events d bits gap t ->
  count_draws t = bits /\ count_calls t = S bits.
Proof.
  intros [t' [-> Hn]]. destruct (narrowing_draws _ _ _ Hn) as [Hd Hc].
  unfold count_draws, count_calls in *. simpl. split; congruence.
Qed.

End Events.

(** ** The working interval under the contract of the unjittered function *)

Section Nesting.

Context {host : Host}.
Variable ok : Key -> Prop.
Variable d : option string.
Hypothesis contract : key_contract ok d.
Variable gr : RandomSource Entropy.
Variables a b : Bound.

Local Abbreviation kept := (kept ok a b).

Lemma bound_lt_above (l : Bound) (k : Key) : above l k -> bound_lt l (BKey k).
Proof. destruct l; simpl; auto. Qed.

Lemma bound_lt_below (h : Bound) (k : Key) : below k h -> bound_lt (BKey k) h.
Proof. destruct h; simpl; auto. Qed.

Lemma body_kept (s : Working) (w : World Entropy) :
  kept s ->
  exists s' w',
    generateKeyBetween_body gr d s w = (Return s', w')
    /\ kept s' /\ nested s s'.
Proof.
  intros (Hl & Hh & Hm & [Hlo Hhi] & Ha & Hb).
  rewrite body_run. destruct (gr (entropy w)) as [[|] e]; cbv zeta.
  - destruct (contract (BKey (midpoint s)) (high s)) as (m & -> & Hok & Hin);
      [assumption|assumption|now apply bound_lt_below|].
    eexists; eexists; split; [reflexivity|]. split.
    + repeat split; simpl; try assumption; try apply Hin.
      apply lower_le_above. eapply above_lower_le; eassumption.
    + split; simpl; [now apply lower_le_above|apply upper_le_refl].
  - destruct (contract (low s) (BKey (midpoint s))) as (m & -> & Hok & Hin);
      [assumption|assumption|now apply bound_lt_above|].
    eexists; eexists; split; [reflexivity|]. split.
    + repeat split; simpl; try assumption; try apply Hin.
      apply upper_le_below. eapply below_upper_le; eassumption.
    + split; simpl; [apply lower_le_refl|now apply upper_le_below].
Qed.

Lemma repeat_body_kept (times : nat) (s : Working) (w : World Entropy) :
  kept s ->
  exists s' w', repeat_body gr d times s w = (Return s', w') /\ kept s'.
Proof.
  revert s w. induction times as [|n IH]; intros s w Hs; simpl.
  - eauto.
  - destruct (body_kept s w Hs) as (s1 & w1 & -> & Hs1 & _). now apply IH.
Qed.

(** The contract gives the first midpoint, and the loop starts from a
    working interval that it keeps. *)
Lemma first_midpoint :
  ok_bound ok a -> ok_bound ok b -> bound_lt a b ->
  exists m, unjitteredGenerateKeyBetween a b d = inr m /\ kept (mkWorking a b m).
Proof.
  intros Ha Hb Hab. destruct (contract a b Ha Hb Hab) as (m & Hm & Hok & Hin).
  exists m. split; [assumption|].
  repeat split; simpl; try assumption; try apply Hin;
    [apply lower_le_refl|apply upper_le_refl].
Qed.

Lemma kept_between (s : Working) :
  kept s -> strictly_between a (midpoint s) b.
Proof.
  intros (_ & _ & _ & [Hlo Hhi] & Ha & Hb). split.
  - eapply above_lower_le; eassumption.
  - eapply below_upper_le; eassumption.
Qed.

End Nesting.

(** ** The batch engine *)

Section Batch.

Context {host : Host}.

Lemma for_unfold (opts : option Options) (keys : list Key) (n i : Z)
    (jitteredKeys : list Key) (w : World Entropy) :
  generateNKeysBetween_for opts keys n i jitteredKeys w
  = if i <? n then
      match generateKeyBetween (array_get keys i) (array_get keys (i + 1)) opts w with
      | (Return k, w') =>
          generateNKeysBetween_for opts keys n (i + 1) (jitteredKeys ++ [k]) w'
      | (Throw e, w') => (Throw e, w')
      end
    else (Return jitteredKeys, w).
Proof.
  rewrite generateNKeysBetween_for_equation_1.
  destruct (Z_lt_dec i n) as [Hi|Hi]; simpl.
  - destruct (Z.ltb_spec i n); [|lia].
    destruct (generateKeyBetween _ _ opts w) as [[k|e] w']; reflexivity.
  - destruct (Z.ltb_spec i n); [lia|reflexivity].
Qed.

(** The [for] loop runs the single-key engine in the gaps from [i] on, in
    increasing order, and appends what it returns. *)
Lemma for_from (opts : option Options) (keys : list Key) (m i : nat)
    (jitteredKeys : list Key) (w : World Entropy) :
  generateNKeysBetween_for opts keys (Z.of_nat (i + m)) (Z.of_nat i) jitteredKeys w
  = match jitter_gaps opts
            (map (fun j => (array_get keys (Z.of_nat j),
                            array_get keys (Z.of_nat j + 1))) (seq i m)) w with
    | (Return ks, w') => (Return (jitteredKeys ++ ks), w')
    | (Throw e, w') => (Throw e, w')
    end.
Proof.
  revert i jitteredKeys w. induction m as [|m IH]; intros i acc w.
  - rewrite for_unfold. destruct (Z.ltb_spec (Z.of_nat i) (Z.of_nat (i + 0))); [lia|].
    simpl. now rewrite app_nil_r.
  - rewrite for_unfold.
    destruct (Z.ltb_spec (Z.of_nat i) (Z.of_nat (i + S m))); [|lia].
    simpl.
    destruct (generateKeyBetween _ _ opts w) as [[k|e] w1]; [|reflexivity].
    replace (Z.of_nat i + 1) with (Z.of_nat (S i)) by lia.
    replace (i + S m)%nat with (S i + m)%nat by lia.
    rewrite IH.
    destruct (jitter_gaps opts _ w1) as [[ks|e] w2]; [|reflexivity].
    now rewrite <- app_assoc.
Qed.

Lemma for_gaps (opts : option Options) (keys : list Key) (n : nat)
    (w : World Entropy) :
  generateNKeysBetween_for opts keys (Z.of_nat n) 0 [] w
  = jitter_gaps opts (gaps keys n) w.
Proof.
  change 0 with (Z.of_nat 0). change n with (0 + n)%nat at 1.
  rewrite for_from. fold (gaps keys n).
  destruct (jitter_gaps opts (gaps keys n) w) as [[ks|e] w']; reflexivity.
Qed.

(** The three paths of [generateNKeysBetween] for a count that is a
    non-negative integer. *)
Lemma batch_none (a b : Bound) (opts : option Options) (w : World Entropy) :
  generateNKeysBetween a b (of_Z 0) opts w = (Return [], w).
Proof.
  unfold generateNKeysBetween, bind. rewrite assert_accepts by lia.
  now rewrite eqb_of_Z.
Qed.

Lemma batch_unjittered (a b : Bound) (n : nat) (opts : option Options)
    (w : World Entropy) :
  is_zero (jitterBits (or_empty opts)) = true ->
  generateNKeysBetween a b (of_Z (Z.of_nat (S n))) opts w
  = let count := of_Z (Z.of_nat (S n)) in
    let w' := mkWorld (entropy w)
                (trace w ++ [CallNKeysBetween a b count (digits_of opts)]) in
    match unjitteredGenerateNKeysBetween a b count (digits_of opts) with
    | inr ks => (Return ks, w')
    | inl err => (Throw (Foreign err), w')
    end.
Proof.
  intros Hzero. unfold generateNKeysBetween, bind at 1.
  rewrite assert_accepts by lia. rewrite eqb_of_Z, Hzero.
  destruct (Z.eqb_spec (Z.of_nat (S n)) 0); [lia|].
  unfold call_unjitteredGenerateNKeysBetween, bind, log, digits_of. cbv zeta.
  destruct (unjitteredGenerateNKeysBetween _ _ _ _); reflexivity.
Qed.

Lemma batch_jittered (a b : Bound) (n : nat) (opts : option Options)
    (w : World Entropy) :
  is_zero (jitterBits (or_empty opts)) = false ->
  generateNKeysBetween a b (of_Z (Z.of_nat (S n))) opts w
  = let count := of_Z (Z.of_nat (S (S n))) in
    let w' := mkWorld (entropy w)
                (trace w ++ [CallNKeysBetween a b count (digits_of opts)]) in
    match unjitteredGenerateNKeysBetween a b count (digits_of opts) with
    | inr keys => jitter_gaps opts (gaps keys (S n)) w'
    | inl err => (Throw (Foreign err), w')
    end.
Proof.
  intros Hzero. unfold generateNKeysBetween, bind at 1.
  rewrite assert_accepts by lia. rewrite eqb_of_Z, Hzero.
  destruct (Z.eqb_spec (Z.of_nat (S n)) 0); [lia|].
  rewrite add_of_Z, integer_value_of_Z.
  replace (Z.of_nat (S n) + 1) with (Z.of_nat (S (S n))) by lia.
  unfold call_unjitteredGenerateNKeysBetween, bind, log, digits_of. cbv zeta.
  destruct (unjitteredGenerateNKeysBetween _ _ _ _); [reflexivity|].
  unfold outcome, ret. cbv beta iota. apply for_gaps.
Qed.

(** The gaps of [n + 1] boundary keys are the keys taken two by two. *)
Lemma array_get_head (k : Key) (keys : list Key) : array_get (k :: keys) 0 = BKey k.
Proof. reflexivity. Qed.

Lemma array_get_tail (k : Key) (keys : list Key) (i : nat) :
  array_get (k :: keys) (Z.of_nat (S i)) = array_get keys (Z.of_nat i).
Proof.
  unfold array_get.
  destruct (Z.ltb_spec (Z.of_nat (S i)) 0); [lia|].
  destruct (Z.ltb_spec (Z.of_nat i) 0); [lia|].
  now rewrite !Nat2Z.id.
Qed.

Lemma gaps_adjacent (keys : list Key) (n : nat) :
  List.length keys = S n -> gaps keys n = adjacent keys.
Proof.
  revert n. induction keys as [|k1 keys IH]; intros n Hlen; [discriminate|].
  destruct keys as [|k2 rest].
  - simpl in Hlen. injection Hlen as <-. reflexivity.
  - destruct n as [|n]; [discriminate|].
    assert (Hlen' : List.length (k2 :: rest) = S n) by (simpl in *; lia).
    specialize (IH n Hlen').
    change (adjacent (k1 :: k2 :: rest))
      with ((BKey k1, BKey k2) :: adjacent (k2 :: rest)).
    rewrite <- IH. unfold gaps. cbn [seq map].
    rewrite <- seq_shift, map_map. f_equal.
    apply map_ext. intros i.
    replace (Z.of_nat (S i) + 1) with (Z.of_nat (S (S i))) by lia.
    replace (Z.of_nat i + 1) with (Z.of_nat (S i)) by lia.
    now rewrite !array_get_tail.
Qed.

End Batch.

(** ** The engines under the contract of the unjittered functions *)

Section Contract.

Context {host : Host}.
Variable ok : Key -> Prop.

Lemma generateKeyBetween_in_gap (a b : Bound) (opts : option Options)
    (bits : nat) (w : World Entropy) :
  key_contract ok (digits_of opts) ->
  effective_jitterBits opts = of_Z (Z.of_nat bits) ->
  ok_bound ok a -> ok_bound ok b -> bound_lt a b ->
  exists k w',
    generateKeyBetween a b opts w = (Return k, w')
    /\ ok k /\ strictly_between a k b.
Proof.
  intros Hc Hbits Ha Hb Hab.
  rewrite generateKeyBetween_run with (bits := bits) by assumption. cbv zeta.
  destruct (first_midpoint ok _ Hc a b Ha Hb Hab) as (m & -> & Hkept).
  destruct (repeat_body_kept ok _ Hc (effective_getRandomBit opts) a b bits _
              (mkWorld (entropy w)
                 (trace w ++ [CallKeyBetween a b (digits_of opts)])) Hkept)
    as (s & w' & -> & Hs).
  exists (midpoint s), w'. split; [reflexivity|]. split.
  - apply Hs.
  - eapply kept_between; eassumption.
Qed.

Lemma jitter_gaps_in_gaps (opts : option Options) (bits : nat)
    (gs : list (Bound * Bound)) (w : World Entropy) :
  key_contract ok (digits_of opts) ->
  effective_jitterBits opts = of_Z (Z.of_nat bits) ->
  Forall (ok_gap ok) gs ->
  exists ks w', jitter_gaps opts gs w = (Return ks, w') /\ Forall2 in_gap gs ks.
Proof.
  intros Hc Hbits Hgs. revert w.
  induction Hgs as [|[a b] gs (Ha & Hb & Hab) _ IH]; intros w; simpl.
  - eauto.
  - destruct (generateKeyBetween_in_gap a b opts bits w Hc Hbits Ha Hb Hab)
      as (k & w1 & -> & _ & Hk).
    destruct (IH w1) as (ks & w2 & -> & Hks).
    exists (k :: ks), w2. split; [reflexivity|]. now constructor.
Qed.

Lemma adjacent_ok (keys : list Key) :
  Forall ok keys -> strictly_increasing keys -> Forall (ok_gap ok) (adjacent keys).
Proof.
  induction keys as [|k1 keys IH]; intros Hok Hinc; [constructor|].
  destruct keys as [|k2 rest]; [constructor|].
  inversion Hok as [|? ? Hk1 Hrest]; subst.
  destruct Hinc as [H12 Hinc].
  change (adjacent (k1 :: k2 :: rest))
    with ((BKey k1, BKey k2) :: adjacent (k2 :: rest)).
  constructor; [|now apply IH].
  inversion Hrest; subst. repeat split; assumption.
Qed.

Lemma adjacent_increasing (keys ks : list Key) :
  Forall2 in_gap (adjacent keys) ks ->
  strictly_increasing ks
  /\ match keys, ks with
     | k :: _, r :: _ => key_lt k r
     | _, _ => True
     end.
Proof.
  revert ks. induction keys as [|k1 keys IH]; intros ks H.
  - inversion H; subst. split; exact I.
  - destruct keys as [|k2 rest].
    + inversion H; subst. split; exact I.
    + change (adjacent (k1 :: k2 :: rest))
        with ((BKey k1, BKey k2) :: adjacent (k2 :: rest)) in H.
      inversion H as [|g r gs rs [Hlo Hhi] Hrest]; subst.
      destruct (IH rs Hrest) as [Hinc Hhead]. simpl in Hlo, Hhi.
      split; [|assumption].
      destruct rs as [|r' rs]; [exact I|].
      split; [|assumption]. eapply key_lt_trans; eassumption.
Qed.

Lemma above_lt (a : Bound) (x y : Key) : above a x -> key_lt x y -> above a y.
Proof. destruct a; simpl; auto. apply key_lt_trans. Qed.

Lemma lt_below (b : Bound) (x y : Key) : key_lt x y -> below y b -> below x b.
Proof. destruct b; simpl; auto. apply key_lt_trans. Qed.

Lemma adjacent_within (a b : Bound) (keys ks : list Key) :
  Forall (fun k => strictly_between a k b) keys ->
  Forall2 in_gap (adjacent keys) ks ->
  Forall (fun k => strictly_between a k b) ks.
Proof.
  revert ks. induction keys as [|k1 keys IH]; intros ks Hin H.
  - inversion H; subst. constructor.
  - destruct keys as [|k2 rest].
    + inversion H; subst. constructor.
    + change (adjacent (k1 :: k2 :: rest))
        with ((BKey k1, BKey k2) :: adjacent (k2 :: rest)) in H.
      inversion H as [|g r gs rs [Hlo Hhi] Hrest]; subst.
      inversion Hin as [|? ? [Ha1 _] Hin']; subst.
      inversion Hin' as [|? ? [_ Hb2] _]; subst. simpl in Hlo, Hhi.
      constructor; [|now apply IH].
      split; [eapply above_lt|eapply lt_below]; eassumption.
Qed.

Lemma adjacent_length (keys : list Key) :
  List.length (adjacent keys) = pred (List.length keys).
Proof.
  induction keys as [|k1 keys IH]; [reflexivity|].
  destruct keys as [|k2 rest]; [reflexivity|].
  change (adjacent (k1 :: k2 :: rest))
    with ((BKey k1, BKey k2) :: adjacent (k2 :: rest)).
  simpl List.length in *. now rewrite IH.
Qed.

End Contract.

(** The contract needs its set of keys: no function returns a key strictly
    between any two strings in order, for nothing lies between ["a"] and
    ["a"] followed by the character of code 0. *)
Remark no_key_between_all_strings :
  ~ exists between : Key -> Key -> Key,
      forall l h, key_lt l h -> key_lt l (between l h) /\ key_lt (between l h) h.
Proof.
  intros [between H].
  destruct (H "a"%string (String "a" (String Ascii.zero EmptyString)) eq_refl)
    as [Hlo Hhi].
  unfold key_lt in Hlo, Hhi.
  destruct (between "a"%string (String "a" (String Ascii.zero EmptyString)))
    as [|c k]; [discriminate|].
  simpl in Hlo, Hhi.
  destruct (Ascii.compare "a" c) eqn:Hc; try discriminate.
  - apply Ascii.compare_eq_iff in Hc. subst c.
    rewrite ascii_compare_refl in Hhi.
    destruct k as [|c' k]; [discriminate|]. simpl in Hhi.
    destruct (Ascii.compare c' Ascii.zero) eqn:Hc'; try discriminate.
    + now destruct k.
    + unfold Ascii.compare in Hc'. simpl in Hc'.
      now destruct (N_of_ascii c').
  - rewrite Ascii.compare_antisym, Hc in Hhi. discriminate.
Qed.

(** ** The events of the batch engine *)

Section BatchEvents.

Context {host : Host}.

Lemma jitter_gaps_events (opts : option Options) (bits : nat)
    (gs : list (Bound * Bound)) (ks : list Key) (w w' : World Entropy) :
  effective_jitterBits opts = of_Z (Z.of_nat bits) ->
  jitter_gaps opts gs w = (Return ks, w') ->
  exists segments,
    trace w' = trace w ++ List.concat segments
    /\ Forall2 (single_key_events (digits_of opts) bits) gs segments.
Proof.
  intros Hbits. revert ks w. induction gs as [|[a b] gs IH]; intros ks w; simpl.
  - intros [= <- <-]. exists []. simpl. rewrite app_nil_r. split; constructor.
  - destruct (generateKeyBetween a b opts w) as [[k|e] w1] eqn:Hk; [|discriminate].
    destruct (jitter_gaps opts gs w1) as [[ks'|e] w2] eqn:Hg; [|discriminate].
    intros [= <- <-].
    destruct (generateKeyBetween_events _ _ _ _ _ _ _ Hbits Hk) as (t & Ht & Hshape).
    destruct (IH _ _ Hg) as (segments & Hsegs & Hall).
    exists (t :: segments). split; [|now constructor].
    simpl. rewrite Hsegs, Ht, <- app_assoc. reflexivity.
Qed.

Lemma jitter_gaps_entropy (opts : option Options) (bits : nat)
    (gs : list (Bound * Bound)) (ks : list Key) (w w' : World Entropy) :
  effective_jitterBits opts = of_Z (Z.of_nat bits) ->
  jitter_gaps opts gs w = (Return ks, w') ->
  entropy w'
  = advance (effective_getRandomBit opts) (List.length gs * bits) (entropy w).
Proof.
  intros Hbits. revert ks w. induction gs as [|[a b] gs IH]; intros ks w; simpl.
  - now intros [= <- <-].
  - destruct (generateKeyBetween a b opts w) as [[k|e] w1] eqn:Hk; [|discriminate].
    destruct (jitter_gaps opts gs w1) as [[ks'|e] w2] eqn:Hg; [|discriminate].
    intros [= <- <-].
    rewrite (IH _ _ Hg), (generateKeyBetween_entropy _ _ _ _ _ _ _ Hbits Hk).
    now rewrite advance_add.
Qed.

Lemma segments_draws d (bits : nat) (gs : list (Bound * Bound))
    (segments : list (list Event)) :
  Forall2 (single_key_events d bits) gs segments ->
  count_draws (List.concat segments) = (List.length gs * bits)%nat.
Proof.
  induction 1 as [|g t gs segments Ht _ IH]; [reflexivity|].
  simpl. rewrite count_draws_app, IH.
  now destruct (single_key_draws _ _ _ _ Ht) as [-> _].
Qed.

Lemma gaps_length (keys : list Key) (n : nat) : List.length (gaps keys n) = n.
Proof. unfold gaps. now rewrite length_map, length_seq. Qed.

End BatchEvents.

(** ** The small host satisfies the contract *)

Module ToyFacts.

Import Toy.
Local Open Scope string_scope.

Lemma bit_cases (c : ascii) :
  Ascii.eqb c "0" || Ascii.eqb c "1" = true -> c = "0"%char \/ c = "1"%char.
Proof.
  intros H. apply orb_true_iff in H.
  destruct H as [H|H]; apply Ascii.eqb_eq in H; auto.
Qed.

Lemma valid_cons (c : ascii) (rest : string) :
  valid (String c rest) ->
  (rest = "" /\ c = "1"%char)
  \/ (rest <> "" /\ (c = "0"%char \/ c = "1"%char) /\ valid rest).
Proof.
  unfold valid. destruct rest as [|c' rest]; simpl.
  - intros H. left. split; [reflexivity|]. now apply Ascii.eqb_eq.
  - intros H. right. apply andb_true_iff in H. destruct H as [Hc Hrest].
    split; [discriminate|]. split; [now apply bit_cases|assumption].
Qed.

Lemma valid_binary (k : string) : valid k -> binary k = true.
Proof.
  induction k as [|c k IH]; [reflexivity|]. intros H.
  destruct (valid_cons _ _ H) as [[-> ->]|(_ & Hc & Hk)]; [reflexivity|].
  simpl. rewrite (IH Hk).
  destruct Hc as [-> | ->]; reflexivity.
Qed.

Lemma valid_ones (m : nat) : valid (ones (S m)).
Proof.
  unfold valid. induction m as [|m IH]; [reflexivity|].
  change (ones (S (S m))) with (String "1" (ones (S m))).
  simpl in *. exact IH.
Qed.

Lemma lower_last_cons (c c' : ascii) (rest : string) (m : nat) :
  lower_last (String c (String c' rest)) m
  = String c (lower_last (String c' rest) m).
Proof. reflexivity. Qed.

Lemma lower_last_not_empty (h : string) (m : nat) :
  h <> "" -> lower_last h m <> "".
Proof.
  destruct h as [|c [|c' rest]]; [congruence| |]; discriminate.
Qed.

Lemma valid_extend (c : ascii) (k : string) :
  c = "0"%char \/ c = "1"%char -> k <> "" -> valid k -> valid (String c k).
Proof.
  unfold valid. intros Hc Hne Hk. destruct k as [|c' k]; [congruence|].
  change (valid_key (String c (String c' k)))
    with ((Ascii.eqb c "0" || Ascii.eqb c "1") && valid_key (String c' k))%bool.
  rewrite Hk. destruct Hc as [-> | ->]; reflexivity.
Qed.

Lemma valid_lower_last (h : string) (m : nat) :
  valid h -> valid (lower_last h (S m)).
Proof.
  induction h as [|c h IH]; [discriminate|]. intros H.
  destruct (valid_cons _ _ H) as [[-> ->]|(Hne & Hc & Hh)].
  - apply valid_extend; [now left|discriminate|apply valid_ones].
  - destruct h as [|c' h]; [congruence|]. rewrite lower_last_cons.
    apply valid_extend; [assumption|now apply lower_last_not_empty|now apply IH].
Qed.

Lemma lower_last_lt (h : string) (m : nat) : valid h -> key_lt (lower_last h m) h.
Proof.
  unfold key_lt. induction h as [|c h IH]; [discriminate|]. intros H.
  destruct (valid_cons _ _ H) as [[-> ->]|(Hne & Hc & Hh)]; [reflexivity|].
  destruct h as [|c' h]; [congruence|]. rewrite lower_last_cons.
  simpl String.compare. rewrite ascii_compare_refl. now apply IH.
Qed.

Lemma below_ones (t : string) (m : nat) :
  binary t = true -> (String.length t < m)%nat -> key_lt t (ones m).
Proof.
  unfold key_lt. revert m. induction t as [|c t IH]; intros m Hb Hlen.
  - destruct m; [inversion Hlen|reflexivity].
  - destruct m as [|m]; [inversion Hlen|].
    simpl in Hb. apply andb_true_iff in Hb. destruct Hb as [Hc Ht].
    simpl in Hlen. simpl.
    destruct (bit_cases _ Hc) as [-> | ->]; [reflexivity|].
    rewrite ascii_compare_refl. apply IH; [assumption|lia].
Qed.

Lemma compare_empty_r (k : string) : String.compare k "" <> Lt.
Proof. destruct k; discriminate. Qed.

Lemma lower_last_above (h l : string) (m : nat) :
  valid l -> valid h -> key_lt l h -> (String.length l < m)%nat ->
  key_lt l (lower_last h m).
Proof.
  revert l. induction h as [|c h IH]; intros l Hl Hh Hlt Hlen; [discriminate|].
  destruct l as [|c0 l]; [discriminate|].
  destruct (valid_cons _ _ Hh) as [[-> ->]|(Hne & Hc & Hh')].
  - (* h is the single character 1 *)
    destruct (valid_cons _ _ Hl) as [[-> ->]|(Hlne & Hc0 & Hl')].
    + exfalso. revert Hlt. apply key_lt_irrefl.
    + destruct Hc0 as [-> | ->].
      * unfold key_lt. simpl. apply below_ones; [now apply valid_binary|].
        simpl in Hlen. lia.
      * exfalso. unfold key_lt in Hlt. simpl in Hlt.
        now apply (compare_empty_r l).
  - destruct h as [|c' h]; [congruence|]. rewrite lower_last_cons.
    remember (lower_last (String c' h) m) as x eqn:Ex.
    unfold key_lt in Hlt |- *. simpl String.compare in Hlt |- *.
    destruct (Ascii.compare c0 c) eqn:Hcmp; [|reflexivity|discriminate].
    destruct (valid_cons _ _ Hl) as [[-> ->]|(Hlne & Hc0 & Hl')].
    + destruct x; [|reflexivity].
      exfalso. symmetry in Ex. revert Ex. now apply lower_last_not_empty.
    + subst x. apply IH; try assumption. simpl in Hlen. lia.
Qed.

Lemma append_one (l : string) : valid l -> valid (l ++ "1") /\ key_lt l (l ++ "1").
Proof.
  unfold key_lt. induction l as [|c l IH]; [discriminate|]. intros H.
  destruct (valid_cons _ _ H) as [[-> ->]|(Hne & Hc & Hl)].
  - split; reflexivity.
  - destruct (IH Hl) as [Hv Hlt]. split.
    + simpl. apply valid_extend; [assumption| |assumption].
      destruct l; [congruence|discriminate].
    + simpl. now rewrite ascii_compare_refl.
Qed.

Lemma ordered_bound_lt (a b : Bound) : bound_lt a b -> ordered a b = true.
Proof.
  destruct a, b; simpl; auto. unfold key_lt, String.ltb. now intros ->.
Qed.

Lemma valid_bound_ok (a : Bound) : ok_bound valid a -> valid_bound a = true.
Proof. destruct a; simpl; auto. Qed.

(** [Toy.key_between] returns a key strictly between its bounds. *)
Lemma key_contract_holds (d : option string) : key_contract valid d.
Proof.
  intros a b Ha Hb Hab. simpl. unfold key_between.
  rewrite (valid_bound_ok _ Ha), (valid_bound_ok _ Hb), (ordered_bound_lt _ _ Hab).
  simpl.
  destruct b as [h| |].
  - exists (lower_last h (S (bound_length a))). split; [reflexivity|].
    simpl in Hb. split; [now apply valid_lower_last|]. split.
    + destruct a as [l| |]; simpl; auto.
      apply lower_last_above; simpl in *; auto.
    + simpl. now apply lower_last_lt.
  - destruct a as [l| |].
    + exists (l ++ "1"). split; [reflexivity|].
      destruct (append_one l Ha) as [Hv Hlt].
      split; [assumption|]. split; simpl; auto.
    + exists "1". repeat split.
    + exists "1". repeat split.
  - destruct a as [l| |].
    + exists (l ++ "1"). split; [reflexivity|].
      destruct (append_one l Ha) as [Hv Hlt].
      split; [assumption|]. split; simpl; auto.
    + exists "1". repeat split.
    + exists "1". repeat split.
Qed.

Lemma keys_from_contract (d : option string) (count : nat) (a b : Bound) :
  ok_bound valid a -> ok_bound valid b -> bound_lt a b ->
  exists ks, keys_from count a b d = inr ks
             /\ List.length ks = count
             /\ Forall valid ks
             /\ strictly_increasing ks
             /\ Forall (fun k => strictly_between a k b) ks.
Proof.
  revert a. induction count as [|n IH]; intros a Ha Hb Hab.
  - exists []. repeat split; constructor.
  - destruct (key_contract_holds d a b Ha Hb Hab) as (k & Hk & Hv & Hin).
    simpl in Hk. simpl. rewrite Hk.
    destruct (IH (BKey k)) as (ks & -> & Hlen & Hok & Hinc & Hall);
      [assumption|assumption|apply bound_lt_below; apply Hin|].
    exists (k :: ks). split; [reflexivity|].
    split; [simpl; now rewrite Hlen|].
    split; [now constructor|]. split.
    + destruct ks as [|k' ks]; [exact I|]. split; [|assumption].
      inversion Hall as [|? ? [Hk' _] _]; subst. exact Hk'.
    + constructor; [assumption|].
      eapply Forall_impl; [|exact Hall].
      intros x [Hx1 Hx2]. split; [|assumption].
      eapply above_lt; [apply Hin|exact Hx1].
Qed.

(** [Toy.n_keys_between] returns as many keys as asked, in order. *)
Lemma batch_contract_holds (d : option string) : batch_contract valid d.
Proof.
  intros a b count Ha Hb Hab. simpl. unfold n_keys_between.
  rewrite integer_value_of_Z, Nat2Z.id. now apply keys_from_contract.
Qed.

End ToyFacts.

(** * The claims *)

Section Claims.

Context {host : Host}.

(** C1.  Under the contract of the unjittered function (between two bounds in
    order it returns a key strictly between them), [generateKeyBetween] on two
    present bounds [l < h], with [jitterBits] any non-negative integer,
    returns a key that is strictly greater than [l] and strictly less than
    [h] in the lexicographic order of strings. *)
Theorem generateKeyBetween_strictly_between
    (ok : Key -> Prop) (l h : Key) (opts : option Options) (bits : nat)
    (w : World Entropy) :
  key_contract ok (digits_of opts) ->
  effective_jitterBits opts = of_Z (Z.of_nat bits) ->
  ok l -> ok h -> key_lt l h ->
  exists k w',
    generateKeyBetween (BKey l) (BKey h) opts w = (Return k, w')
    /\ key_lt l k /\ key_lt k h.
Proof.
  intros Hc Hbits Hl Hh Hlh.
  destruct (generateKeyBetween_in_gap ok (BKey l) (BKey h) opts bits w
              Hc Hbits Hl Hh Hlh) as (k & w' & Hrun & _ & Hlo & Hhi).
  exists k, w'. auto.
Qed.

(** C2.  Under the contracts of the two unjittered functions,
    [generateNKeysBetween] with a count [n] that is a non-negative integer
    returns exactly [n] keys, strictly increasing, each of them strictly
    between the bounds that are present. *)
Theorem generateNKeysBetween_ordered
    (ok : Key -> Prop) (a b : Bound) (n : nat) (opts : option Options)
    (bits : nat) (w : World Entropy) :
  key_contract ok (digits_of opts) ->
  batch_contract ok (digits_of opts) ->
  effective_jitterBits opts = of_Z (Z.of_nat bits) ->
  ok_bound ok a -> ok_bound ok b -> bound_lt a b ->
  exists ks w',
    generateNKeysBetween a b (of_Z (Z.of_nat n)) opts w = (Return ks, w')
    /\ List.length ks = n
    /\ strictly_increasing ks
    /\ Forall (fun k => strictly_between a k b) ks.
Proof.
  intros Hc Hbc Hbits Ha Hb Hab. destruct n as [|n].
  - exists [], w. split; [apply batch_none|]. repeat split; constructor.
  - destruct (is_zero (jitterBits (or_empty opts))) eqn:Hzero.
    + rewrite batch_unjittered by assumption. cbv zeta.
      destruct (Hbc a b (S n) Ha Hb Hab) as (ks & -> & Hlen & _ & Hinc & Hall).
      eexists; eexists. split; [reflexivity|]. auto.
    + rewrite batch_jittered by assumption. cbv zeta.
      destruct (Hbc a b (S (S n)) Ha Hb Hab)
        as (keys & -> & Hlen & Hok & Hinc & Hall).
      rewrite (gaps_adjacent keys (S n) Hlen).
      destruct (jitter_gaps_in_gaps ok opts bits (adjacent keys)
                  (mkWorld (entropy w)
                     (trace w ++ [CallNKeysBetween a b (of_Z (Z.of_nat (S (S n))))
                                    (digits_of opts)]))
                  Hc Hbits (adjacent_ok ok keys Hok Hinc))
        as (ks & w' & -> & Hks).
      exists ks, w'. split; [reflexivity|]. split; [|split].
      * rewrite <- (Forall2_length Hks), adjacent_length, Hlen. reflexivity.
      * apply (adjacent_increasing keys ks Hks).
      * apply (adjacent_within a b keys ks Hall Hks).
Qed.

(** C3.  A call of [generateKeyBetween] whose effective [jitterBits], and a
    call of [generateNKeysBetween] whose [n], is negative or not an integer
    throws an [Error] whose message names the parameter and its value, and
    leaves the world as it found it: no unjittered function has been called,
    no random bit drawn and nothing returned. *)
Theorem invalid_parameter_fails_first :
  (forall (a b : Bound) (opts : option Options) (w : World Entropy),
      Number_isInteger (effective_jitterBits opts) = false
      \/ number_ltb (effective_jitterBits opts) (of_Z 0) = true ->
      exists text,
        (text = " must be an integer, got '"
         \/ text = " must be greater than or equal to 0, got '")%string
        /\ generateKeyBetween a b opts w
           = (Throw (Error (dquote ++ "jitterBits" ++ dquote ++ text
                              ++ Number_toString (effective_jitterBits opts)
                              ++ "'")%string),
              w))
  /\ (forall (a b : Bound) (n : number) (opts : option Options) (w : World Entropy),
         Number_isInteger n = false \/ number_ltb n (of_Z 0) = true ->
         exists text,
           (text = " must be an integer, got '"
            \/ text = " must be greater than or equal to 0, got '")%string
           /\ generateNKeysBetween a b n opts w
              = (Throw (Error (dquote ++ "n" ++ dquote ++ text
                                 ++ Number_toString n ++ "'")%string),
                 w)).
Proof.
  split.
  - intros a b opts w Hbad.
    destruct (assert_refuses "jitterBits"%string _ w Hbad) as (text & Hwhich & Htext).
    exists text. split; [assumption|]. unfold generateKeyBetween, bind at 1.
    fold (effective_jitterBits opts). now rewrite Htext.
  - intros a b n opts w Hbad.
    destruct (assert_refuses "n"%string _ w Hbad) as (text & Hwhich & Htext).
    exists text. split; [assumption|].
    unfold generateNKeysBetween, bind at 1. now rewrite Htext.
Qed.

(** [jitterBits === 0] holds of no number but zero. *)
Lemma is_zero_bits (opts : option Options) (bits : nat) :
  is_zero (jitterBits (or_empty opts)) = true ->
  effective_jitterBits opts = of_Z (Z.of_nat bits) ->
  bits = O.
Proof.
  unfold effective_jitterBits, is_zero.
  destruct (jitterBits (or_empty opts)) as [j|]; [|discriminate].
  simpl. intros Hz ->. rewrite eqb_of_Z in Hz.
  apply Z.eqb_eq in Hz. lia.
Qed.

(** C4.  A call of [generateKeyBetween] that returns has called its random-bit
    source exactly [jitterBits] times: the entropy is where that many calls
    leave it and the trace has gained that many random bits.  A call of
    [generateNKeysBetween] for [n] keys that returns has called it exactly
    [n * jitterBits] times, and, where it jitters, gap by gap: after the call
    for the boundary keys, the events are those of one single-key call per
    gap, in the order of the gaps, each with its [jitterBits] draws. *)
Theorem entropy_accounting :
  (forall (a b : Bound) (opts : option Options) (bits : nat)
          (w w' : World Entropy) (k : Key),
      effective_jitterBits opts = of_Z (Z.of_nat bits) ->
      generateKeyBetween a b opts w = (Return k, w') ->
      entropy w' = advance (effective_getRandomBit opts) bits (entropy w)
      /\ exists t, trace w' = trace w ++ t /\ count_draws t = bits)
  /\ (forall (a b : Bound) (n : nat) (opts : option Options) (bits : nat)
             (w w' : World Entropy) (ks : list Key),
         effective_jitterBits opts = of_Z (Z.of_nat bits) ->
         generateNKeysBetween a b (of_Z (Z.of_nat n)) opts w = (Return ks, w') ->
         entropy w' = advance (effective_getRandomBit opts) (n * bits) (entropy w)
         /\ exists t,
             trace w' = trace w ++ t
             /\ count_draws t = (n * bits)%nat
             /\ (is_zero (jitterBits (or_empty opts)) = false ->
                 exists keys segments,
                   t = match n with
                       | O => []
                       | S _ => [CallNKeysBetween a b (of_Z (Z.of_nat (S n)))
                                   (digits_of opts)]
                       end ++ List.concat segments
                   /\ Forall2 (single_key_events (digits_of opts) bits)
                               (gaps keys n) segments)).
Proof.
  split.
  - intros a b opts bits w w' k Hbits Hrun.
    split; [exact (generateKeyBetween_entropy a b opts bits w w' k Hbits Hrun)|].
    destruct (generateKeyBetween_events a b opts bits w w' k Hbits Hrun)
      as (t & Ht & Hshape).
    exists t. split; [assumption|]. apply (single_key_draws _ _ _ _ Hshape).
  - intros a b n opts bits w w' ks Hbits. destruct n as [|n].
    + rewrite batch_none. intros [= <- <-]. split; [reflexivity|].
      exists []. rewrite app_nil_r.
      split; [reflexivity|]. split; [reflexivity|].
      intros _. exists [], []. split; [reflexivity|constructor].
    + destruct (is_zero (jitterBits (or_empty opts))) eqn:Hzero.
      * rewrite batch_unjittered by assumption. cbv zeta.
        destruct (unjitteredGenerateNKeysBetween _ _ _ _); [discriminate|].
        intros [= <- <-]. rewrite (is_zero_bits opts bits Hzero Hbits).
        rewrite Nat.mul_0_r. split; [reflexivity|].
        eexists. split; [reflexivity|].
        split; [reflexivity|discriminate].
      * rewrite batch_jittered by assumption. cbv zeta.
        destruct (unjitteredGenerateNKeysBetween _ _ _ _) as [err|keys];
          [discriminate|].
        intros Hgaps. split.
        -- rewrite (jitter_gaps_entropy opts bits _ ks _ w' Hbits Hgaps).
           now rewrite gaps_length.
        -- destruct (jitter_gaps_events opts bits _ ks _ w' Hbits Hgaps)
             as (segments & Ht & Hall).
           simpl in Ht. rewrite <- app_assoc in Ht.
           eexists. split; [exact Ht|]. split.
           ++ rewrite count_draws_app, (segments_draws _ _ _ _ Hall), gaps_length.
              reflexivity.
           ++ intros _. exists keys, segments. split; [reflexivity|assumption].
Qed.

(** C5.  With [jitterBits] explicitly [0] and a positive count,
    [generateNKeysBetween] makes the one call of the unjittered batch function
    for that count and the configured digits and returns (or throws) what it
    returns (or throws); no random bit is drawn and nothing else is called. *)
Theorem batch_pass_through
    (a b : Bound) (n : nat) (d : option string)
    (source : option (RandomSource Entropy)) (w : World Entropy) :
  generateNKeysBetween a b (of_Z (Z.of_nat (S n)))
    (Some (mkOptions d (Some (of_Z 0)) source)) w
  = (match unjitteredGenerateNKeysBetween a b (of_Z (Z.of_nat (S n))) d with
     | inr ks => Return ks
     | inl err => Throw (Foreign err)
     end,
     mkWorld (entropy w)
       (trace w ++ [CallNKeysBetween a b (of_Z (Z.of_nat (S n))) d])).
Proof.
  rewrite batch_unjittered by reflexivity. cbv zeta.
  change (digits_of (Some (mkOptions d (Some (of_Z 0)) source))) with d.
  destruct (unjitteredGenerateNKeysBetween _ _ _ _); reflexivity.
Qed.

(** C6.  With [jitterBits = 0], [generateKeyBetween] makes one call of the
    unjittered function on its bounds and digits and returns (or throws) what
    it returns (or throws), drawing no random bit; so two calls with the same
    bounds and digits give the same key, whatever the state of the world. *)
Theorem unjittered_single_key (a b : Bound) (d : option string) :
  let opts := fun source => Some (mkOptions d (Some (of_Z 0)) source) in
  (forall source (w : World Entropy),
      generateKeyBetween a b (opts source) w
      = (match unjitteredGenerateKeyBetween a b d with
         | inr k => Return k
         | inl err => Throw (Foreign err)
         end,
         mkWorld (entropy w) (trace w ++ [CallKeyBetween a b d])))
  /\ (forall source1 source2 (w1 w2 : World Entropy),
         fst (generateKeyBetween a b (opts source1) w1)
         = fst (generateKeyBetween a b (opts source2) w2)).
Proof.
  intros opts.
  assert (Hrun : forall source (w : World Entropy),
             generateKeyBetween a b (opts source) w
             = (match unjitteredGenerateKeyBetween a b d with
                | inr k => Return k
                | inl err => Throw (Foreign err)
                end,
                mkWorld (entropy w) (trace w ++ [CallKeyBetween a b d]))).
  { intros source w.
    rewrite generateKeyBetween_run with (bits := O) by reflexivity.
    cbv zeta. change (digits_of (opts source)) with d.
    destruct (unjitteredGenerateKeyBetween a b d); reflexivity. }
  split; [exact Hrun|].
  intros source1 source2 w1 w2. now rewrite !Hrun.
Qed.

(** C7.  In a pass through the loop body a random bit is drawn; when it is
    true the lower bound becomes the current midpoint, when it is false the
    upper bound does; the midpoint is then recomputed by one call of the
    unjittered function on the new interval.  The loop makes exactly
    [jitterBits] passes (specification 4.2, step 4) and [generateKeyBetween]
    returns the midpoint after the last one. *)
Theorem narrowing_loop :
  (forall gr d (s : Working) (w : World Entropy),
      generateKeyBetween_body gr d s w
      = let (bit, e) := gr (entropy w) in
        let low' := if bit then BKey (midpoint s) else low s in
        let high' := if bit then high s else BKey (midpoint s) in
        let w' := mkWorld e (trace w
                               ++ [RandomBit bit; CallKeyBetween low' high' d]) in
        match unjitteredGenerateKeyBetween low' high' d with
        | inr m => (Return (mkWorking low' high' m), w')
        | inl err => (Throw (Foreign err), w')
        end)
  /\ (forall (a b : Bound) (opts : option Options) (bits : nat) (w : World Entropy),
         effective_jitterBits opts = of_Z (Z.of_nat bits) ->
         generateKeyBetween a b opts w
         = let d := digits_of opts in
           let w0 := mkWorld (entropy w) (trace w ++ [CallKeyBetween a b d]) in
           match unjitteredGenerateKeyBetween a b d with
           | inl err => (Throw (Foreign err), w0)
           | inr m =>
               match repeat_body (effective_getRandomBit opts) d bits
                       (mkWorking a b m) w0 with
               | (Return s, w') => (Return (midpoint s), w')
               | (Throw e, w') => (Throw e, w')
               end
           end)
  /\ (forall gr d (bits : nat) (s : Working) (w : World Entropy),
         generateKeyBetween_while gr d (Z.of_nat bits) s w
         = match repeat_body gr d bits s w with
           | (Return s', w') => (Return (midpoint s'), w')
           | (Throw e, w') => (Throw e, w')
           end)
  /\ (forall gr d (bits : nat) (s s' : Working) (w w' : World Entropy),
         repeat_body gr d bits s w = (Return s', w') ->
         exists t, trace w' = trace w ++ t
                   /\ narrowing d bits t
                   /\ count_draws t = bits /\ count_calls t = bits).
Proof.
  split; [exact body_run|]. split; [exact generateKeyBetween_run|].
  split; [exact while_repeat|].
  intros gr d bits s s' w w' Hrun.
  destruct (repeat_body_events gr d bits s s' w w' Hrun) as (t & Ht & Hshape).
  exists t. split; [assumption|]. split; [assumption|].
  apply (narrowing_draws d bits t Hshape).
Qed.

(** C8.  With [n = 0], [generateNKeysBetween] returns the empty sequence and
    leaves the world as it found it, whatever the bounds and the options: no
    unjittered function is called and no random bit is drawn. *)
Theorem batch_of_zero
    (a b : Bound) (opts : option Options) (w : World Entropy) :
  generateNKeysBetween a b (of_Z 0) opts w = (Return [], w).
Proof.
  unfold generateNKeysBetween, bind. rewrite assert_accepts by lia.
  rewrite eqb_of_Z. reflexivity.
Qed.

(** One more pass is a pass after the others. *)
Lemma repeat_body_more gr d (times : nat) (s : Working) (w : World Entropy) :
  repeat_body gr d (S times) s w
  = match repeat_body gr d times s w with
    | (Return s', w') => generateKeyBetween_body gr d s' w'
    | (Throw e, w') => (Throw e, w')
    end.
Proof.
  revert s w. induction times as [|n IH]; intros s w.
  - simpl. destruct (generateKeyBetween_body gr d s w) as [[s'|e] w']; reflexivity.
  - change (repeat_body gr d (S (S n)) s w)
      with (match generateKeyBetween_body gr d s w with
            | (Return s', w') => repeat_body gr d (S n) s' w'
            | (Throw e, w') => (Throw e, w')
            end).
    change (repeat_body gr d (S n) s w)
      with (match generateKeyBetween_body gr d s w with
            | (Return s', w') => repeat_body gr d n s' w'
            | (Throw e, w') => (Throw e, w')
            end).
    destruct (generateKeyBetween_body gr d s w) as [[s1|e] w1]; [|reflexivity].
    apply IH.
Qed.

(** C9.  Under the contract of the unjittered function the working interval
    of [generateKeyBetween] stays nested.  The first midpoint lies strictly
    between the bounds of the call; every pass through the loop completes and
    leaves the lower bound no smaller than it was and no smaller than the
    lower bound of the call, the upper bound no greater than it was and no
    greater than the upper bound of the call, and the new midpoint strictly
    between the new bounds (an absent bound bounds nothing); and the call
    returns the midpoint after the last pass. *)
Theorem narrowing_stays_nested
    (ok : Key -> Prop) (a b : Bound) (opts : option Options) (bits : nat)
    (w : World Entropy) :
  key_contract ok (digits_of opts) ->
  effective_jitterBits opts = of_Z (Z.of_nat bits) ->
  ok_bound ok a -> ok_bound ok b -> bound_lt a b ->
  let gr := effective_getRandomBit opts in
  let d := digits_of opts in
  let w0 := mkWorld (entropy w) (trace w ++ [CallKeyBetween a b d]) in
  exists m,
    unjitteredGenerateKeyBetween a b d = inr m
    /\ inside (mkWorking a b m)
    /\ (forall i : nat, (i < bits)%nat ->
          exists s wi s' wi',
            repeat_body gr d i (mkWorking a b m) w0 = (Return s, wi)
            /\ generateKeyBetween_body gr d s wi = (Return s', wi')
            /\ repeat_body gr d (S i) (mkWorking a b m) w0 = (Return s', wi')
            /\ nested s s'
            /\ lower_le a (low s') /\ upper_le (high s') b
            /\ inside s')
    /\ (exists s w',
          repeat_body gr d bits (mkWorking a b m) w0 = (Return s, w')
          /\ inside s
          /\ generateKeyBetween a b opts w = (Return (midpoint s), w')).
Proof.
  intros Hc Hbits Ha Hb Hab gr d w0.
  destruct (first_midpoint ok d Hc a b Ha Hb Hab) as (m & Hm & Hkept).
  exists m. split; [assumption|]. split; [apply Hkept|]. split.
  - intros i _.
    destruct (repeat_body_kept ok d Hc gr a b i _ w0 Hkept) as (s & wi & Hi & Hs).
    destruct (body_kept ok d Hc gr a b s wi Hs) as (s' & wi' & Hbody & Hs' & Hnest).
    exists s, wi, s', wi'. split; [assumption|]. split; [assumption|].
    split; [now rewrite repeat_body_more, Hi|].
    split; [assumption|]. repeat split; apply Hs'.
  - destruct (repeat_body_kept ok d Hc gr a b bits _ w0 Hkept) as (s & w' & Hrun & Hs).
    exists s, w'. split; [assumption|]. split; [apply Hs|].
    rewrite generateKeyBetween_run with (bits := bits) by assumption. cbv zeta.
    fold d gr w0. now rewrite Hm, Hrun.
Qed.

(** The two messages of the validator are different strings. *)
Lemma append_cancel (x y z : string) : (x ++ y = x ++ z -> y = z)%string.
Proof.
  induction x as [|c x IH]; simpl; [auto|]. intros [= H]. auto.
Qed.

Lemma messages_differ (paramName : string) (n : number) :
  must_be_integer paramName n <> must_be_non_negative paramName n.
Proof.
  unfold must_be_integer, must_be_non_negative. intros H.
  apply append_cancel, append_cancel, append_cancel in H.
  discriminate H.
Qed.

(** C10.  The validator tests integrality before sign: a number that is not an
    integer is refused with the must-be-an-integer message, which is not the
    must-be-non-negative message, also when the number is negative. *)
Theorem integrality_checked_first
    (paramName : string) (n : number) (w : World Entropy) :
  Number_isInteger n = false ->
  assertIsPositiveInteger paramName n w
  = (Throw (Error (must_be_integer paramName n)), w)
  /\ must_be_integer paramName n <> must_be_non_negative paramName n.
Proof.
  intros Hint. split; [now apply assert_not_integer|apply messages_differ].
Qed.

(** [generateNKeysBetween] itself does not look at [jitterBits] beyond
    comparing it with [0]: for a positive count, a [jitterBits] that the
    validator refuses is refused by the single-key call in the first gap,
    after the unjittered batch function has been called and has returned. *)
Remark batch_checks_jitterBits_late
    (a b : Bound) (n : nat) (opts : option Options) (w : World Entropy) :
  is_zero (jitterBits (or_empty opts)) = false ->
  Number_isInteger (effective_jitterBits opts) = false
  \/ number_ltb (effective_jitterBits opts) (of_Z 0) = true ->
  let count := of_Z (Z.of_nat (S (S n))) in
  let w' := mkWorld (entropy w)
              (trace w ++ [CallNKeysBetween a b count (digits_of opts)]) in
  exists text,
    generateNKeysBetween a b (of_Z (Z.of_nat (S n))) opts w
    = match unjitteredGenerateNKeysBetween a b count (digits_of opts) with
      | inr _ =>
          (Throw (Error (dquote ++ "jitterBits" ++ dquote ++ text
                           ++ Number_toString (effective_jitterBits opts)
                           ++ "'")%string), w')
      | inl err => (Throw (Foreign err), w')
      end.
Proof.
  intros Hzero Hbad count w'.
  destruct (assert_refuses "jitterBits"%string (effective_jitterBits opts) w' Hbad)
    as (text & _ & Htext).
  exists text. rewrite batch_jittered by assumption. cbv zeta. fold count w'.
  destruct (unjitteredGenerateNKeysBetween a b count (digits_of opts))
    as [err|keys]; [reflexivity|].
  change (gaps keys (S n))
    with ((array_get keys (Z.of_nat 0), array_get keys (Z.of_nat 0 + 1))
            :: map (fun i => (array_get keys (Z.of_nat i),
                              array_get keys (Z.of_nat i + 1))) (seq 1 n)).
  cbn [jitter_gaps]. unfold generateKeyBetween, bind at 1.
  fold (effective_jitterBits opts). now rewrite Htext.
Qed.

End Claims.

(** * The claims on the small host *)

Section Runs.

Import Toy.
Local Open Scope string_scope.

Lemma generateKeyBetween_strictly_between_witness :
  exists k w',
    generateKeyBetween (BKey "01") (BKey "1") (options (of_Z 3))
      (start [true; false; true])
    = (Return k, w')
    /\ key_lt "01" k /\ key_lt k "1".
Proof.
  apply (generateKeyBetween_strictly_between valid "01" "1" (options (of_Z 3)) 3%nat).
  - apply ToyFacts.key_contract_holds.
  - reflexivity.
  - reflexivity.
  - reflexivity.
  - reflexivity.
Defined.

Lemma generateNKeysBetween_ordered_witness :
  exists ks w',
    generateNKeysBetween (BKey "01") (BKey "1") (of_Z 3) (options (of_Z 2))
      (start [true; false; true; false; false; true])
    = (Return ks, w')
    /\ List.length ks = 3%nat
    /\ strictly_increasing ks
    /\ Forall (fun k => strictly_between (BKey "01") k (BKey "1")) ks.
Proof.
  apply (generateNKeysBetween_ordered valid (BKey "01") (BKey "1") 3%nat
           (options (of_Z 2)) 2%nat).
  - apply ToyFacts.key_contract_holds.
  - apply ToyFacts.batch_contract_holds.
  - reflexivity.
  - reflexivity.
  - reflexivity.
  - reflexivity.
Defined.

Lemma invalid_parameter_fails_first_witness :
  (exists text,
      (text = " must be an integer, got '"
       \/ text = " must be greater than or equal to 0, got '")
      /\ generateKeyBetween (BKey "01") (BKey "1")
           (options (Finite (Q2Qc (7 # 2)))) (start [true])
         = (Throw (Error (dquote ++ "jitterBits" ++ dquote ++ text ++ "3.5" ++ "'")),
            start [true]))
  /\ (exists text,
         (text = " must be an integer, got '"
          \/ text = " must be greater than or equal to 0, got '")
         /\ generateNKeysBetween (BKey "01") (BKey "1") (of_Z (-1))
              (options (of_Z 2)) (start [true])
            = (Throw (Error (dquote ++ "n" ++ dquote ++ text ++ "-1" ++ "'")),
               start [true])).
Proof.
  destruct (invalid_parameter_fails_first (host := host)) as [Hkey Hbatch].
  split.
  - apply (Hkey (BKey "01") (BKey "1") (options (Finite (Q2Qc (7 # 2))))
             (start [true])).
    left. reflexivity.
  - apply (Hbatch (BKey "01") (BKey "1") (of_Z (-1)) (options (of_Z 2))
             (start [true])).
    right. reflexivity.
Defined.

Lemma entropy_accounting_witness :
  (entropy (snd (generateKeyBetween (BKey "01") (BKey "1") (options (of_Z 3))
                   (start [true; false; true; true])))
   = advance next_bit 3 [true; false; true; true]
   /\ exists t,
       trace (snd (generateKeyBetween (BKey "01") (BKey "1") (options (of_Z 3))
                     (start [true; false; true; true])))
       = ([] ++ t)%list
       /\ count_draws t = 3%nat)
  /\ (exists t,
         trace (snd (generateNKeysBetween (BKey "01") (BKey "1") (of_Z 3)
                       (options (of_Z 2))
                       (start [true; false; true; false; false; true])))
         = ([] ++ t)%list
         /\ count_draws t = (3 * 2)%nat).
Proof.
  destruct (entropy_accounting (host := host)) as [Hkey Hbatch].
  split.
  - apply (Hkey (BKey "01") (BKey "1") (options (of_Z 3)) 3%nat
             (start [true; false; true; true])
             (snd (generateKeyBetween (BKey "01") (BKey "1") (options (of_Z 3))
                     (start [true; false; true; true])))
             "011110111111111111");
      [reflexivity|vm_compute; reflexivity].
  - destruct (Hbatch (BKey "01") (BKey "1") 3%nat (options (of_Z 2)) 2%nat
                (start [true; false; true; false; false; true])
                (snd (generateNKeysBetween (BKey "01") (BKey "1") (of_Z 3)
                        (options (of_Z 2))
                        (start [true; false; true; false; false; true])))
                ["011110111111111110111111111111";
                 "0111111011111111111111101111111111111111";
                 "011111111011111111011111111111111111111111111111"])
      as (_ & t & Ht & Hcount & _);
      [reflexivity|vm_compute; reflexivity|].
    exists t. split; assumption.
Defined.

Lemma narrowing_loop_witness :
  generateKeyBetween (BKey "01") (BKey "1") (options (of_Z 3))
    (start [true; false; true])
  = (Return "011110111111111111",
     mkWorld []
       [CallKeyBetween (BKey "01") (BKey "1") None;
        RandomBit true; CallKeyBetween (BKey "0111") (BKey "1") None;
        RandomBit false; CallKeyBetween (BKey "0111") (BKey "011111") None;
        RandomBit true; CallKeyBetween (BKey "01111011111") (BKey "011111") None]).
Proof.
  destruct (narrowing_loop (host := host)) as (_ & Hrun & _ & _).
  rewrite (Hrun (BKey "01") (BKey "1") (options (of_Z 3)) 3%nat) by reflexivity.
  vm_compute. reflexivity.
Defined.

Lemma narrowing_stays_nested_witness :
  exists m,
    key_between (BKey "01") (BKey "1") None = inr m
    /\ inside (mkWorking (BKey "01") (BKey "1") m)
    /\ (forall i : nat, (i < 3)%nat ->
          exists s wi s' wi',
            repeat_body next_bit None i (mkWorking (BKey "01") (BKey "1") m)
              (mkWorld [true; false; true] [CallKeyBetween (BKey "01") (BKey "1") None])
            = (Return s, wi)
            /\ generateKeyBetween_body next_bit None s wi = (Return s', wi')
            /\ repeat_body next_bit None (S i) (mkWorking (BKey "01") (BKey "1") m)
                 (mkWorld [true; false; true] [CallKeyBetween (BKey "01") (BKey "1") None])
               = (Return s', wi')
            /\ nested s s'
            /\ lower_le (BKey "01") (low s') /\ upper_le (high s') (BKey "1")
            /\ inside s')
    /\ (exists s w',
          repeat_body next_bit None 3 (mkWorking (BKey "01") (BKey "1") m)
            (mkWorld [true; false; true] [CallKeyBetween (BKey "01") (BKey "1") None])
          = (Return s, w')
          /\ inside s
          /\ generateKeyBetween (BKey "01") (BKey "1") (options (of_Z 3))
               (start [true; false; true])
             = (Return (midpoint s), w')).
Proof.
  apply (narrowing_stays_nested valid (BKey "01") (BKey "1") (options (of_Z 3))
           3%nat (start [true; false; true])).
  - apply ToyFacts.key_contract_holds.
  - reflexivity.
  - reflexivity.
  - reflexivity.
  - reflexivity.
Defined.

Lemma integrality_checked_first_witness :
  number_ltb (Finite (Q2Qc (-3 # 2))) (of_Z 0) = true
  /\ assertIsPositiveInteger "jitterBits" (Finite (Q2Qc (-3 # 2))) (start [])
     = (Throw (Error (dquote ++ "jitterBits" ++ dquote
                        ++ " must be an integer, got '-1.5'")), start [])
  /\ must_be_integer "jitterBits" (Finite (Q2Qc (-3 # 2)))
     <> must_be_non_negative "jitterBits" (Finite (Q2Qc (-3 # 2))).
Proof.
  split; [reflexivity|].
  apply (integrality_checked_first (host := host)
           "jitterBits" (Finite (Q2Qc (-3 # 2))) (start [])).
  reflexivity.
Defined.

(** The cases of the test suite that do not depend on the keys of
    "fractional-indexing". *)

Example throws_for_non_integer_jitterBits :
  fst (generateKeyBetween (BKey "01") (BKey "1")
         (options (Finite (Q2Qc (7 # 2)))) (start []))
  = Throw (Error (dquote ++ "jitterBits" ++ dquote ++ " must be an integer, got '3.5'")).
Proof. reflexivity. Qed.

Example throws_for_negative_jitterBits :
  fst (generateKeyBetween (BKey "01") (BKey "1") (options (of_Z (-1))) (start []))
  = Throw (Error (dquote ++ "jitterBits" ++ dquote
                    ++ " must be greater than or equal to 0, got '-1'")).
Proof. reflexivity. Qed.

Example throws_for_fractional_n :
  fst (generateNKeysBetween (BKey "01") (BKey "1") (Finite (Q2Qc (37 # 10)))
         None (start []))
  = Throw (Error (dquote ++ "n" ++ dquote ++ " must be an integer, got '3.7'")).
Proof. reflexivity. Qed.

Example accepts_zero_jitterBits :
  fst (generateKeyBetween (BKey "01") (BKey "1") (options (of_Z 0)) (start []))
  = Return "0111".
Proof. reflexivity. Qed.

Example calls_getRandomBit_three_times :
  count_draws (trace (snd (generateKeyBetween (BKey "01") (BKey "1")
                             (options (of_Z 3)) (start [true; true; true]))))
  = 3%nat.
Proof. vm_compute. reflexivity. Qed.

Example handles_n_zero :
  generateNKeysBetween (BKey "01") (BKey "1") (of_Z 0) None (start [true])
  = (Return [], start [true]).
Proof. vm_compute. reflexivity. Qed.

Example default_jitterBits_is_30 :
  count_draws (trace (snd (generateKeyBetween (BKey "01") (BKey "1") None
                             (start []))))
  = 30%nat.
Proof. vm_compute. reflexivity. Qed.

End Runs.

(** * Further properties of the engines *)

(** ** The validator, case by case *)

Section ValidatorCases.

Context {host : Host}.

(** [assertIsPositiveInteger] returns exactly on the non-negative integers,
    zero among them; whatever it is given it leaves the world as it was, and
    what it throws is an [Error] with one of its two messages.  [NaN] and the
    infinities are refused as not being integers. *)
Theorem validator_accepts_iff (paramName : string) (n : number) (w : World Entropy) :
  snd (assertIsPositiveInteger paramName n w) = w
  /\ (fst (assertIsPositiveInteger paramName n w) = Return tt
      <-> exists k : nat, n = of_Z (Z.of_nat k))
  /\ (forall ex, fst (assertIsPositiveInteger paramName n w) = Throw ex ->
        ex = Error (must_be_integer paramName n)
        \/ ex = Error (must_be_non_negative paramName n))
  /\ (n = NaN \/ (exists neg, n = Infinity neg) ->
        fst (assertIsPositiveInteger paramName n w)
        = Throw (Error (must_be_integer paramName n))).
Proof.
  destruct (Number_isInteger n) eqn:Hint.
  - destruct (number_ltb n (of_Z 0)) eqn:Hsign.
    + rewrite (assert_negative paramName n w Hint Hsign). simpl.
      split; [reflexivity|]. split; [|split].
      * split; [discriminate|]. intros [k ->].
        rewrite ltb_of_Z in Hsign. apply Z.ltb_lt in Hsign. lia.
      * intros ex [= <-]. now right.
      * intros [-> | [neg ->]]; discriminate.
    + destruct (accepted_is_of_nat n Hint Hsign) as [k ->].
      rewrite assert_accepts by lia. simpl.
      split; [reflexivity|]. split; [|split].
      * split; [eauto|reflexivity].
      * discriminate.
      * intros [H | [neg H]]; discriminate.
  - rewrite (assert_not_integer paramName n w Hint). simpl.
    split; [reflexivity|]. split; [|split].
    + split; [discriminate|]. intros [k ->].
      rewrite isInteger_of_Z in Hint. discriminate.
    + intros ex [= <-]. now left.
    + reflexivity.
Qed.

End ValidatorCases.

(** ** The key as a function of the bits drawn *)

Section Bits.

Context {host : Host}.

Lemma drawn_length gr (times : nat) (e : Entropy) :
  List.length (drawn gr times e) = times.
Proof.
  revert e. induction times as [|n IH]; intros e; simpl; [reflexivity|].
  destruct (gr e) as [bit e']. simpl. now rewrite IH.
Qed.

Lemma repeat_body_walk gr d (times : nat) (s : Working) (w : World Entropy) :
  fst (repeat_body gr d times s w)
  = match walk d (drawn gr times (entropy w)) s with
    | inr s' => Return s'
    | inl err => Throw (Foreign err)
    end.
Proof.
  revert s w. induction times as [|n IH]; intros s w; simpl; [reflexivity|].
  rewrite body_run. destruct (gr (entropy w)) as [bit e]. cbv zeta.
  unfold narrow. simpl walk.
  replace ((if bit then 1 else 0) =? 1) with bit by now destruct bit.
  unfold narrow.
  replace ((if bit then 1 else 0) =? 1) with bit by now destruct bit.
  destruct (unjitteredGenerateKeyBetween _ _ d) as [err|m]; [reflexivity|].
  rewrite IH. reflexivity.
Qed.

Lemma generateKeyBetween_walk (a b : Bound) (opts : option Options)
    (bits : nat) (w : World Entropy) :
  effective_jitterBits opts = of_Z (Z.of_nat bits) ->
  fst (generateKeyBetween a b opts w)
  = match unjitteredGenerateKeyBetween a b (digits_of opts) with
    | inl err => Throw (Foreign err)
    | inr m =>
        match walk (digits_of opts)
                (drawn (effective_getRandomBit opts) bits (entropy w))
                (mkWorking a b m) with
        | inr s => Return (midpoint s)
        | inl err => Throw (Foreign err)
        end
    end.
Proof.
  intros Hbits. rewrite generateKeyBetween_run with (bits := bits) by assumption.
  cbv zeta.
  destruct (unjitteredGenerateKeyBetween a b (digits_of opts)) as [err|m];
    [reflexivity|].
  pose proof (repeat_body_walk (effective_getRandomBit opts) (digits_of opts) bits
                (mkWorking a b m)
                (mkWorld (entropy w)
                   (trace w ++ [CallKeyBetween a b (digits_of opts)]))) as Hwalk.
  simpl entropy in Hwalk.
  destruct (repeat_body _ _ bits _ _) as [[s|e] w1]; simpl in Hwalk;
    destruct (walk _ _ _); simpl; congruence.
Qed.

Lemma walk_app d (p q : list bool) (s : Working) :
  walk d (p ++ q) s
  = match walk d p s with
    | inr s' => walk d q s'
    | inl err => inl err
    end.
Proof.
  revert s. induction p as [|bit p IH]; intros s; simpl; [reflexivity|].
  destruct (narrow d bit s); [reflexivity|apply IH].
Qed.

(** Two lists of bits of one length that differ have a first place where
    they differ. *)
Lemma first_difference (l1 l2 : list bool) :
  List.length l1 = List.length l2 -> l1 <> l2 ->
  exists p r1 r2,
    (l1 = p ++ false :: r1 /\ l2 = p ++ true :: r2)
    \/ (l1 = p ++ true :: r1 /\ l2 = p ++ false :: r2).
Proof.
  revert l2. induction l1 as [|x l1 IH]; intros [|y l2] Hlen Hne;
    try discriminate; [congruence|].
  destruct (Bool.bool_dec x y) as [->|Hxy].
  - destruct (IH l2) as (p & r1 & r2 & H); [simpl in Hlen; lia|congruence|].
    exists (y :: p), r1, r2.
    destruct H as [[-> ->]|[-> ->]]; [left|right]; split; reflexivity.
  - exists [], l1, l2. destruct x, y; try congruence; [right|left]; split; reflexivity.
Qed.

(** The key depends on the world only through the bits that are drawn: two
    calls on the same bounds, with the same digits and number of jitter bits,
    whose sources return the same bits, return the same key or throw the same
    exception, whatever the sources and the states they start from. *)
Theorem key_depends_on_bits_only
    (a b : Bound) (opts1 opts2 : option Options) (bits : nat)
    (w1 w2 : World Entropy) :
  effective_jitterBits opts1 = of_Z (Z.of_nat bits) ->
  effective_jitterBits opts2 = of_Z (Z.of_nat bits) ->
  digits_of opts1 = digits_of opts2 ->
  drawn (effective_getRandomBit opts1) bits (entropy w1)
  = drawn (effective_getRandomBit opts2) bits (entropy w2) ->
  fst (generateKeyBetween a b opts1 w1) = fst (generateKeyBetween a b opts2 w2).
Proof.
  intros H1 H2 Hd Hbits.
  rewrite (generateKeyBetween_walk a b opts1 bits w1 H1).
  rewrite (generateKeyBetween_walk a b opts2 bits w2 H2).
  now rewrite Hd, Hbits.
Qed.

End Bits.

(** ** Different bits, different keys *)

Section Spread.

Context {host : Host}.
Variable ok : Key -> Prop.
Variable d : option string.
Hypothesis contract : key_contract ok d.

Lemma kept_self (a b : Bound) (s : Working) :
  kept ok a b s -> kept ok (low s) (high s) s.
Proof.
  intros (Hl & Hh & Hm & Hin & _ & _).
  repeat split; try assumption; try apply Hin;
    [apply lower_le_refl|apply upper_le_refl].
Qed.

Lemma narrow_kept (a b : Bound) (bit : bool) (s : Working) :
  kept ok a b s ->
  exists s',
    narrow d bit s = inr s' /\ kept ok a b s'
    /\ low s' = (if bit then BKey (midpoint s) else low s)
    /\ high s' = (if bit then high s else BKey (midpoint s)).
Proof.
  intros (Hl & Hh & Hm & [Hlo Hhi] & Ha & Hb). unfold narrow.
  destruct bit; simpl.
  - destruct (contract (BKey (midpoint s)) (high s)) as (m & -> & Hok & Hin);
      [assumption|assumption|now apply bound_lt_below|].
    eexists. split; [reflexivity|]. split; [|split; reflexivity].
    repeat split; simpl; try assumption; try apply Hin.
    apply lower_le_above. eapply above_lower_le; eassumption.
  - destruct (contract (low s) (BKey (midpoint s))) as (m & -> & Hok & Hin);
      [assumption|assumption|now apply bound_lt_above|].
    eexists. split; [reflexivity|]. split; [|split; reflexivity].
    repeat split; simpl; try assumption; try apply Hin.
    apply upper_le_below. eapply below_upper_le; eassumption.
Qed.

Lemma walk_kept (a b : Bound) (bits : list bool) (s : Working) :
  kept ok a b s -> exists s', walk d bits s = inr s' /\ kept ok a b s'.
Proof.
  revert s. induction bits as [|bit bits IH]; intros s Hs; simpl; [eauto|].
  destruct (narrow_kept a b bit s Hs) as (s1 & -> & Hs1 & _). now apply IH.
Qed.

(** After a common beginning, the walk that goes on with [false] ends below
    the midpoint where they part, and the one that goes on with [true] ends
    above it. *)
Lemma walk_ordered (a b : Bound) (p r1 r2 : list bool) (s : Working) :
  kept ok a b s ->
  exists s1 s2,
    walk d (p ++ false :: r1) s = inr s1
    /\ walk d (p ++ true :: r2) s = inr s2
    /\ key_lt (midpoint s1) (midpoint s2).
Proof.
  intros Hs. rewrite !walk_app.
  destruct (walk_kept a b p s Hs) as (sp & -> & Hsp). simpl.
  destruct (narrow_kept a b false sp Hsp) as (sF & -> & HsF & _ & HhiF).
  destruct (narrow_kept a b true sp Hsp) as (sT & -> & HsT & HloT & _).
  destruct (walk_kept _ _ r1 sF (kept_self a b sF HsF)) as (s1 & -> & Hs1).
  destruct (walk_kept _ _ r2 sT (kept_self a b sT HsT)) as (s2 & -> & Hs2).
  exists s1, s2. split; [reflexivity|]. split; [reflexivity|].
  destruct (kept_between ok _ _ s1 Hs1) as [_ Hbelow].
  destruct (kept_between ok _ _ s2 Hs2) as [Habove _].
  rewrite HhiF in Hbelow. rewrite HloT in Habove. simpl in Hbelow, Habove.
  eapply key_lt_trans; eassumption.
Qed.

End Spread.

Section SpreadTheorems.

Context {host : Host}.

(** Under the contract of the unjittered function the key grows with the bits
    drawn: of two calls with the same arguments whose bits agree up to a
    place where one draws [false] and the other [true], the first returns the
    strictly smaller key. *)
Theorem key_grows_with_bits
    (ok : Key -> Prop) (a b : Bound) (opts : option Options) (bits : nat)
    (w1 w2 : World Entropy) (p r1 r2 : list bool) :
  key_contract ok (digits_of opts) ->
  effective_jitterBits opts = of_Z (Z.of_nat bits) ->
  ok_bound ok a -> ok_bound ok b -> bound_lt a b ->
  drawn (effective_getRandomBit opts) bits (entropy w1) = p ++ false :: r1 ->
  drawn (effective_getRandomBit opts) bits (entropy w2) = p ++ true :: r2 ->
  exists k1 k2,
    fst (generateKeyBetween a b opts w1) = Return k1
    /\ fst (generateKeyBetween a b opts w2) = Return k2
    /\ key_lt k1 k2.
Proof.
  intros Hc Hbits Ha Hb Hab H1 H2.
  rewrite !(generateKeyBetween_walk a b opts bits) by assumption.
  destruct (first_midpoint ok _ Hc a b Ha Hb Hab) as (m & -> & Hkept).
  rewrite H1, H2.
  destruct (walk_ordered ok _ Hc a b p r1 r2 _ Hkept) as (s1 & s2 & -> & -> & Hlt).
  eauto.
Qed.

(** Under the contract of the unjittered function two calls with the same
    arguments return the same key exactly when they draw the same bits. *)
Theorem keys_collide_iff_same_bits
    (ok : Key -> Prop) (a b : Bound) (opts : option Options) (bits : nat)
    (w1 w2 : World Entropy) :
  key_contract ok (digits_of opts) ->
  effective_jitterBits opts = of_Z (Z.of_nat bits) ->
  ok_bound ok a -> ok_bound ok b -> bound_lt a b ->
  exists k1 k2,
    fst (generateKeyBetween a b opts w1) = Return k1
    /\ fst (generateKeyBetween a b opts w2) = Return k2
    /\ (k1 = k2
        <-> drawn (effective_getRandomBit opts) bits (entropy w1)
            = drawn (effective_getRandomBit opts) bits (entropy w2)).
Proof.
  intros Hc Hbits Ha Hb Hab.
  rewrite !(generateKeyBetween_walk a b opts bits) by assumption.
  destruct (first_midpoint ok _ Hc a b Ha Hb Hab) as (m & -> & Hkept).
  set (gr := effective_getRandomBit opts).
  destruct (walk_kept ok _ Hc a b (drawn gr bits (entropy w1)) _ Hkept)
    as (s1 & Hs1 & _).
  destruct (walk_kept ok _ Hc a b (drawn gr bits (entropy w2)) _ Hkept)
    as (s2 & Hs2 & _).
  rewrite Hs1, Hs2. exists (midpoint s1), (midpoint s2).
  split; [reflexivity|]. split; [reflexivity|]. split.
  - intros Heq.
    destruct (list_eq_dec Bool.bool_dec (drawn gr bits (entropy w1))
                (drawn gr bits (entropy w2))) as [|Hne]; [assumption|].
    exfalso.
    destruct (first_difference _ _
                (eq_trans (drawn_length gr bits (entropy w1))
                   (eq_sym (drawn_length gr bits (entropy w2)))) Hne)
      as (p & r1 & r2 & [[E1 E2]|[E1 E2]]).
    + destruct (walk_ordered ok _ Hc a b p r1 r2 _ Hkept)
        as (t1 & t2 & Ht1 & Ht2 & Hlt).
      rewrite E1, Ht1 in Hs1. rewrite E2, Ht2 in Hs2.
      injection Hs1 as <-. injection Hs2 as <-.
      rewrite Heq in Hlt. revert Hlt. apply key_lt_irrefl.
    + destruct (walk_ordered ok _ Hc a b p r2 r1 _ Hkept)
        as (t2 & t1 & Ht2 & Ht1 & Hlt).
      rewrite E1, Ht1 in Hs1. rewrite E2, Ht2 in Hs2.
      injection Hs1 as <-. injection Hs2 as <-.
      rewrite Heq in Hlt. revert Hlt. apply key_lt_irrefl.
  - intros Heq. rewrite Heq in Hs1. congruence.
Qed.

End SpreadTheorems.

(** ** What a single-key call costs and how it fails *)

Section SingleKeyOutcomes.

Context {host : Host}.

(** The events of the loop, whether it returns or a call throws. *)
Lemma repeat_body_outcome gr d (times : nat) (s : Working) (w : World Entropy) :
  exists t,
    trace (snd (repeat_body gr d times s w)) = trace w ++ t
    /\ count_calls t = count_draws t
    /\ (count_draws t <= times)%nat
    /\ Forall (single_key_event d) t
    /\ (forall s', fst (repeat_body gr d times s w) = Return s' ->
          count_draws t = times).
Proof.
  revert s w. induction times as [|n IH]; intros s w; simpl.
  - exists []. rewrite app_nil_r. repeat split; auto.
  - rewrite body_run. destruct (gr (entropy w)) as [bit e]. cbv zeta.
    destruct (unjitteredGenerateKeyBetween _ _ d) as [err|m].
    + eexists. simpl. split; [reflexivity|].
      split; [reflexivity|]. split; [unfold count_draws; simpl; lia|].
      split; [repeat constructor|discriminate].
    + match goal with
      | |- context [repeat_body gr d n ?s1 ?w1] =>
          destruct (IH s1 w1) as (t & Ht & Hcalls & Hle & Hall & Hret)
      end.
      simpl trace in Ht. rewrite <- app_assoc in Ht.
      eexists. split; [exact Ht|].
      rewrite count_calls_app, count_draws_app.
      split; [unfold count_calls, count_draws in *; simpl; lia|].
      split; [unfold count_draws in *; simpl; lia|].
      split; [apply Forall_app; split; [repeat constructor|assumption]|].
      intros s' Hs'. rewrite (Hret s' Hs'). reflexivity.
Qed.



(** A single-key call whose [jitterBits] is a non-negative integer begins
    with the call of the unjittered function on its own bounds, whatever they
    are; from there on it only draws bits and calls that function with the
    same digits, one call after each bit.  So it has made one call more than
    it has drawn bits and has drawn at most [jitterBits] bits, also when a
    call throws; when it returns it has made [jitterBits + 1] calls. *)
Theorem single_key_cost
    (a b : Bound) (opts : option Options) (bits : nat) (w : World Entropy) :
  effective_jitterBits opts = of_Z (Z.of_nat bits) ->
  exists t,
    trace (snd (generateKeyBetween a b opts w))
    = trace w ++ CallKeyBetween a b (digits_of opts) :: t
    /\ Forall (single_key_event (digits_of opts)) t
    /\ count_calls (CallKeyBetween a b (digits_of opts) :: t) = S (count_draws t)
    /\ (count_draws t <= bits)%nat
    /\ (forall k, fst (generateKeyBetween a b opts w) = Return k ->
          count_draws t = bits
          /\ count_calls (CallKeyBetween a b (digits_of opts) :: t) = S bits).
Proof.
  intros Hbits. rewrite generateKeyBetween_run with (bits := bits) by assumption.
  cbv zeta.
  destruct (unjitteredGenerateKeyBetween a b (digits_of opts)) as [err|m].
  - exists []. simpl. split; [reflexivity|]. split; [constructor|].
    split; [reflexivity|]. split; [unfold count_draws; simpl; lia|discriminate].
  - destruct (repeat_body_outcome (effective_getRandomBit opts) (digits_of opts)
                bits (mkWorking a b m)
                (mkWorld (entropy w)
                   (trace w ++ [CallKeyBetween a b (digits_of opts)])))
      as (t & Ht & Hcalls & Hle & Hall & Hret).
    simpl trace in Ht. rewrite <- app_assoc in Ht. simpl in Ht.
    exists t.
    assert (Hone : count_calls (CallKeyBetween a b (digits_of opts) :: t)
                   = S (count_draws t)).
    { unfold count_calls in *. simpl. now rewrite Hcalls. }
    destruct (repeat_body _ _ bits _ _) as [[s|e] w1]; simpl in *.
    + split; [assumption|]. split; [assumption|]. split; [assumption|].
      split; [assumption|]. intros k _.
      rewrite Hone. rewrite (Hret s eq_refl). split; reflexivity.
    + split; [assumption|]. split; [assumption|]. split; [assumption|].
      split; [assumption|discriminate].
Qed.


End SingleKeyOutcomes.

(** ** What a batch call costs and how it fails *)

Section BatchOutcomes.

Context {host : Host}.





Lemma segments_calls d (bits : nat) (gs : list (Bound * Bound))
    (segments : list (list Event)) :
  Forall2 (single_key_events d bits) gs segments ->
  count_calls (List.concat segments) = (List.length gs * S bits)%nat.
Proof.
  induction 1 as [|g t gs segments Ht _ IH]; [reflexivity|].
  simpl. rewrite count_calls_app, IH.
  now destruct (single_key_draws _ _ _ _ Ht) as [_ ->].
Qed.

(** The calls of the unjittered functions that a batch call makes when it
    returns: none for no key; the one batch call when [jitterBits] is
    explicitly [0]; otherwise the batch call and [jitterBits + 1] single-key
    calls for each of the [n] keys. *)
Theorem batch_cost
    (a b : Bound) (n : nat) (opts : option Options) (bits : nat)
    (w w' : World Entropy) (ks : list Key) :
  effective_jitterBits opts = of_Z (Z.of_nat bits) ->
  generateNKeysBetween a b (of_Z (Z.of_nat n)) opts w = (Return ks, w') ->
  exists t,
    trace w' = trace w ++ t
    /\ count_calls t
       = match n with
         | O => O
         | S _ => if is_zero (jitterBits (or_empty opts)) then 1%nat
                  else S (n * S bits)
         end.
Proof.
  intros Hbits. destruct n as [|n].
  - rewrite batch_none. intros [= <- <-]. exists []. now rewrite app_nil_r.
  - destruct (is_zero (jitterBits (or_empty opts))) eqn:Hzero.
    + rewrite batch_unjittered by assumption. cbv zeta.
      destruct (unjitteredGenerateNKeysBetween _ _ _ _); [discriminate|].
      intros [= <- <-]. eexists. split; reflexivity.
    + rewrite batch_jittered by assumption. cbv zeta.
      destruct (unjitteredGenerateNKeysBetween _ _ _ _) as [err|keys];
        [discriminate|].
      intros Hgaps.
      destruct (jitter_gaps_events opts bits _ ks _ w' Hbits Hgaps)
        as (segments & Ht & Hall).
      simpl in Ht. rewrite <- app_assoc in Ht.
      eexists. split; [exact Ht|].
      rewrite count_calls_app, (segments_calls _ _ _ _ Hall), gaps_length.
      reflexivity.
Qed.

End BatchOutcomes.

(** ** More under the contract of the unjittered functions *)

Section ContractMore.

Context {host : Host}.

(** Under the contract of the unjittered function, [generateKeyBetween] also
    returns when a bound is absent, [null] or [undefined] alike: the key is
    above the lower bound if there is one and below the upper bound if there
    is one, and it is a key that the unjittered function accepts in turn. *)
Theorem generateKeyBetween_open_bounds
    (ok : Key -> Prop) (a b : Bound) (opts : option Options) (bits : nat)
    (w : World Entropy) :
  key_contract ok (digits_of opts) ->
  effective_jitterBits opts = of_Z (Z.of_nat bits) ->
  ok_bound ok a -> ok_bound ok b -> bound_lt a b ->
  exists k w',
    generateKeyBetween a b opts w = (Return k, w')
    /\ ok k
    /\ match a with BKey l => key_lt l k | BNull | BUndefined => True end
    /\ match b with BKey h => key_lt k h | BNull | BUndefined => True end.
Proof.
  intros Hc Hbits Ha Hb Hab.
  destruct (generateKeyBetween_in_gap ok a b opts bits w Hc Hbits Ha Hb Hab)
    as (k & w' & Hrun & Hok & Hlo & Hhi).
  exists k, w'. split; [assumption|]. split; [assumption|].
  split; [destruct a|destruct b]; simpl in *; auto.
Qed.

(** In the jittered path of [generateNKeysBetween] the keys returned
    interleave with the [n + 1] boundary keys of the unjittered batch: the
    key of each gap lies strictly between the two boundary keys of that gap,
    so it is none of them. *)
Theorem batch_interleaves
    (ok : Key -> Prop) (a b : Bound) (n : nat) (opts : option Options)
    (bits : nat) (w : World Entropy) :
  key_contract ok (digits_of opts) ->
  batch_contract ok (digits_of opts) ->
  effective_jitterBits opts = of_Z (Z.of_nat bits) ->
  is_zero (jitterBits (or_empty opts)) = false ->
  ok_bound ok a -> ok_bound ok b -> bound_lt a b ->
  exists keys ks w',
    unjitteredGenerateNKeysBetween a b (of_Z (Z.of_nat (S (S n)))) (digits_of opts)
    = inr keys
    /\ List.length keys = S (S n)
    /\ generateNKeysBetween a b (of_Z (Z.of_nat (S n))) opts w = (Return ks, w')
    /\ Forall2 in_gap (adjacent keys) ks.
Proof.
  intros Hc Hbc Hbits Hzero Ha Hb Hab.
  rewrite batch_jittered by assumption. cbv zeta.
  destruct (Hbc a b (S (S n)) Ha Hb Hab) as (keys & -> & Hlen & Hok & Hinc & _).
  rewrite (gaps_adjacent keys (S n) Hlen).
  destruct (jitter_gaps_in_gaps ok opts bits (adjacent keys)
              (mkWorld (entropy w)
                 (trace w ++ [CallNKeysBetween a b (of_Z (Z.of_nat (S (S n))))
                                (digits_of opts)]))
              Hc Hbits (adjacent_ok ok keys Hok Hinc))
    as (ks & w' & -> & Hks).
  exists keys, ks, w'. auto.
Qed.

Lemma shrink_high_between
    (ok : Key -> Prop) (opts : option Options) (bits : nat) (l : Bound)
    (times : nat) (h : Key) (w : World Entropy) :
  key_contract ok (digits_of opts) ->
  effective_jitterBits opts = of_Z (Z.of_nat bits) ->
  ok_bound ok l -> ok h -> bound_lt l (BKey h) ->
  exists k w',
    shrink_high opts l times h w = (Return k, w')
    /\ ok k /\ bound_lt l (BKey k) /\ key_le k h
    /\ (times <> O -> key_lt k h).
Proof.
  intros Hc Hbits Hl. revert h w.
  induction times as [|n IH]; intros h w Hh Hlh; simpl.
  - exists h, w. split; [reflexivity|]. split; [assumption|].
    split; [assumption|]. split; [apply key_le_refl|congruence].
  - destruct (generateKeyBetween_in_gap ok l (BKey h) opts bits w
                Hc Hbits Hl Hh Hlh) as (k1 & w1 & -> & Hok1 & Hlo1 & Hhi1).
    simpl in Hhi1.
    destruct (IH k1 w1 Hok1 (bound_lt_above l k1 Hlo1))
      as (k & w' & -> & Hok & Hlo & Hle & _).
    exists k, w'. split; [reflexivity|]. split; [assumption|].
    split; [assumption|].
    assert (Hlt : key_lt k h) by (eapply key_le_lt_trans; eassumption).
    split; [now apply key_lt_le|auto].
Qed.

(** Under the contract of the unjittered function the returned key can be put
    back as the upper bound as often as one likes (the loop of the test
    "should not generate keys that are too long"): every call returns, and
    after at least one call the key is strictly below the upper bound the
    loop started from and still above the lower bound. *)
Theorem shrink_high_stays_between
    (ok : Key -> Prop) (opts : option Options) (bits : nat) (l h : Key)
    (times : nat) (w : World Entropy) :
  key_contract ok (digits_of opts) ->
  effective_jitterBits opts = of_Z (Z.of_nat bits) ->
  ok l -> ok h -> key_lt l h ->
  exists k w',
    shrink_high opts (BKey l) (S times) h w = (Return k, w')
    /\ key_lt l k /\ key_lt k h.
Proof.
  intros Hc Hbits Hl Hh Hlh.
  destruct (shrink_high_between ok opts bits (BKey l) (S times) h w
              Hc Hbits Hl Hh Hlh) as (k & w' & Hrun & _ & Hlo & _ & Hlt).
  exists k, w'. split; [assumption|]. split; [exact Hlo|].
  apply Hlt. discriminate.
Qed.

End ContractMore.

(** * The further properties on the small host *)

Section MoreRuns.

Import Toy ToyInputs.
Local Open Scope string_scope.

Lemma key_depends_on_bits_only_witness :
  fst (generateKeyBetween (BKey "01") (BKey "1") (options (of_Z 3))
         (start [true; true; true; false]))
  = fst (generateKeyBetween (BKey "01") (BKey "1") always_true (start [])).
Proof.
  apply (key_depends_on_bits_only (BKey "01") (BKey "1")
           (options (of_Z 3)) always_true 3%nat
           (start [true; true; true; false]) (start []));
    reflexivity.
Defined.

Lemma key_grows_with_bits_witness :
  exists k1 k2,
    fst (generateKeyBetween (BKey "01") (BKey "1") (options (of_Z 3))
           (start [true; false; true]))
    = Return k1
    /\ fst (generateKeyBetween (BKey "01") (BKey "1") (options (of_Z 3))
              (start [true; true; false]))
       = Return k2
    /\ key_lt k1 k2.
Proof.
  apply (key_grows_with_bits valid (BKey "01") (BKey "1") (options (of_Z 3)) 3%nat
           (start [true; false; true]) (start [true; true; false])
           [true] [true] [false]).
  - apply ToyFacts.key_contract_holds.
  - reflexivity.
  - reflexivity.
  - reflexivity.
  - reflexivity.
  - reflexivity.
  - reflexivity.
Defined.

Lemma keys_collide_iff_same_bits_witness :
  exists k1 k2,
    fst (generateKeyBetween (BKey "01") BNull (options (of_Z 2))
           (start [true; false; true]))
    = Return k1
    /\ fst (generateKeyBetween (BKey "01") BNull (options (of_Z 2))
              (start [true; false; false]))
       = Return k2
    /\ (k1 = k2
        <-> drawn next_bit 2 [true; false; true] = drawn next_bit 2 [true; false; false]).
Proof.
  apply (keys_collide_iff_same_bits valid (BKey "01") BNull (options (of_Z 2)) 2%nat
           (start [true; false; true]) (start [true; false; false])).
  - apply ToyFacts.key_contract_holds.
  - reflexivity.
  - reflexivity.
  - exact I.
  - exact I.
Defined.

Lemma single_key_cost_witness :
  exists t,
    trace (snd (generateKeyBetween (BKey "1") (BKey "01") (options (of_Z 3))
                  (start [true; false; true])))
    = CallKeyBetween (BKey "1") (BKey "01") None :: t
    /\ Forall (single_key_event None) t
    /\ count_calls (CallKeyBetween (BKey "1") (BKey "01") None :: t)
       = S (count_draws t)
    /\ (count_draws t <= 3)%nat
    /\ (forall k,
          fst (generateKeyBetween (BKey "1") (BKey "01") (options (of_Z 3))
                 (start [true; false; true])) = Return k ->
          count_draws t = 3%nat
          /\ count_calls (CallKeyBetween (BKey "1") (BKey "01") None :: t) = 4%nat).
Proof.
  apply (single_key_cost (BKey "1") (BKey "01") (options (of_Z 3)) 3%nat
           (start [true; false; true])).
  reflexivity.
Defined.



Lemma batch_cost_witness :
  exists t,
    trace (snd (generateNKeysBetween (BKey "01") (BKey "1") (of_Z 3)
                  (options (of_Z 2))
                  (start [true; false; true; false; false; true])))
    = t
    /\ count_calls t = 10%nat.
Proof.
  apply (batch_cost (BKey "01") (BKey "1") 3%nat (options (of_Z 2)) 2%nat
           (start [true; false; true; false; false; true])
           (snd (generateNKeysBetween (BKey "01") (BKey "1") (of_Z 3)
                   (options (of_Z 2))
                   (start [true; false; true; false; false; true])))
           ["011110111111111110111111111111";
            "0111111011111111111111101111111111111111";
            "011111111011111111011111111111111111111111111111"]);
    [reflexivity|vm_compute; reflexivity].
Defined.

Lemma generateKeyBetween_open_bounds_witness :
  exists k w',
    generateKeyBetween BNull BUndefined (options (of_Z 2)) (start [true; false])
    = (Return k, w')
    /\ valid k /\ True /\ True.
Proof.
  apply (generateKeyBetween_open_bounds valid BNull BUndefined (options (of_Z 2))
           2%nat (start [true; false])).
  - apply ToyFacts.key_contract_holds.
  - reflexivity.
  - exact I.
  - exact I.
  - exact I.
Defined.

Lemma batch_interleaves_witness :
  exists keys ks w',
    n_keys_between (BKey "01") (BKey "1") (of_Z (Z.of_nat 3)) None = inr keys
    /\ List.length keys = 3%nat
    /\ generateNKeysBetween (BKey "01") (BKey "1") (of_Z (Z.of_nat 2))
         (options (of_Z 1)) (start [true; false])
       = (Return ks, w')
    /\ Forall2 in_gap (adjacent keys) ks.
Proof.
  apply (batch_interleaves valid (BKey "01") (BKey "1") 1%nat (options (of_Z 1))
           1%nat (start [true; false])).
  - apply ToyFacts.key_contract_holds.
  - apply ToyFacts.batch_contract_holds.
  - reflexivity.
  - reflexivity.
  - reflexivity.
  - reflexivity.
  - reflexivity.
Defined.

Lemma shrink_high_stays_between_witness :
  exists k w',
    shrink_high (options (of_Z 2)) (BKey "01") 3 "1"
      (start [true; false; false; true; true; true])
    = (Return k, w')
    /\ key_lt "01" k /\ key_lt k "1".
Proof.
  apply (shrink_high_stays_between valid (options (of_Z 2)) 2%nat "01" "1" 2%nat
           (start [true; false; false; true; true; true])).
  - apply ToyFacts.key_contract_holds.
  - reflexivity.
  - reflexivity.
  - reflexivity.
  - reflexivity.
Defined.

Lemma batch_checks_jitterBits_late_witness :
  exists text,
    generateNKeysBetween (BKey "01") (BKey "1") (of_Z (Z.of_nat 1))
      (options (Finite (Q2Qc (7 # 2)))) (start [true])
    = match n_keys_between (BKey "01") (BKey "1") (of_Z (Z.of_nat 2)) None with
      | inr _ =>
          (Throw (Error (dquote ++ "jitterBits" ++ dquote ++ text ++ "3.5" ++ "'")),
           mkWorld [true]
             [CallNKeysBetween (BKey "01") (BKey "1") (of_Z (Z.of_nat 2)) None])
      | inl err =>
          (Throw (Foreign err),
           mkWorld [true]
             [CallNKeysBetween (BKey "01") (BKey "1") (of_Z (Z.of_nat 2)) None])
      end.
Proof.
  apply (batch_checks_jitterBits_late (host := host) (BKey "01") (BKey "1") 0%nat
           (options (Finite (Q2Qc (7 # 2)))) (start [true])).
  - reflexivity.
  - left. reflexivity.
Defined.

End MoreRuns.
